(** * Signaling relay: registry, presence subscriptions, relay and rate limiter

    A shallow embedding of the handlers of [server(3).js] and the
    properties of its three in-memory indices.

    Modelling conventions.
    - A JavaScript string is a [string]; every character stands for one
      UTF-16 code unit below 256.
    - [userSockets] and [presenceSubscriptions] are plain objects keyed by
      strings that clients send. A read finds an own property or, failing
      that, the member of [Object.prototype] of that name; an assignment
      under [__proto__] does not create a property.
    - [socketSubscriptions] is keyed by [socket.id], which the server
      generates; socket ids are taken not to name a member of
      [Object.prototype], and the object is a finite map.
    - [rateLimit] is a [Map] and the store is a key-value store: both are
      finite maps.
    - A handler is a computation in a small monad that threads the server
      state, collects what is emitted, and may throw; a throw leaves the
      state as it was at that point. Nothing in the file catches an
      exception that escapes a handler, so in the running server such a
      throw ends the process: a history of events ends with the first
      handler that throws.
    - The transport is socket.io 4, the first to have the [socket.data]
      that the handlers use: [socket.to(room)] leaves out every socket in
      the room named by the sender's id, and a room that is not a string
      holds nobody.
    - [Date.now()] is an input of the handlers that use it.
    - [console.log] output is left out; [console.error] is kept. *)

From Stdlib Require Import ZArith Ascii String.
From stdpp Require Import gmap strings list fin_maps.

Local Open Scope string_scope.
Local Open Scope list_scope.
Local Open Scope Z_scope.

(** * Part I: the program *)

(** ** Identity normalizer (line 174) *)

Module Normalizer.

(** The code units below 256 matched by the regular expression class [\s]:
    tab, line feed, vertical tab, form feed, carriage return, space and the
    no-break space. *)
Definition is_space (c : ascii) : bool :=
  let n := nat_of_ascii c in
  ((9 <=? n)%nat && (n <=? 13)%nat) || (n =? 32)%nat || (n =? 160)%nat.

(** [k.replace(/\s+/g,'')] on a string: every whitespace run is dropped. *)
Fixpoint normKey (k : string) : string :=
  match k with
  | EmptyString => EmptyString
  | String c rest =>
      if is_space c then normKey rest else String c (normKey rest)
  end.

Definition normalized (k : string) : Prop := normKey k = k.

End Normalizer.
Export Normalizer.

(** ** Rate limiter (lines 126-154) *)

Module RateLimiter.

Record record := mkRecord { count : Z; startTime : Z }.

Definition LIMIT : Z := 20.
Definition TIME_FRAME : Z := 60 * 1000.

(** [isRateLimited] for the address [ip] at time [now]: the verdict and the
    map afterwards. [record.count++] updates the record held by the map. *)
Definition isRateLimited (ip : string) (now : Z)
    (rateLimit : gmap string record) : bool * gmap string record :=
  match rateLimit !! ip with
  | None => (false, <[ip := mkRecord 1 now]> rateLimit)
  | Some rec =>
      if TIME_FRAME <? now - startTime rec
      then (false, <[ip := mkRecord 1 now]> rateLimit)
      else if LIMIT <=? count rec
      then (true, rateLimit)
      else (false, <[ip := mkRecord (count rec + 1) (startTime rec)]> rateLimit)
  end.

(** The verdicts of a run of calls from one address, oldest first. *)
Fixpoint admits (ip : string) (times : list Z)
    (rateLimit : gmap string record) : list bool * gmap string record :=
  match times with
  | [] => ([], rateLimit)
  | now :: later =>
      let '(blocked, rl1) := isRateLimited ip now rateLimit in
      let '(verdicts, rl2) := admits ip later rl1 in
      (blocked :: verdicts, rl2)
  end.

(** The count stored for an address, 0 when it has no record. *)
Definition stored_count (ip : string) (rateLimit : gmap string record) : Z :=
  match rateLimit !! ip with Some rec => count rec | None => 0 end.

End RateLimiter.
Export RateLimiter.

(** ** Values, objects, sockets and the server state *)

Module Js.

#[warnings="-register-all"]
Inductive jsval :=
| JUndefined
| JNull
| JBool (b : bool)
| JNum (n : Z)
| JStr (s : string)
| JArr (items : list jsval)
| JObj (fields : list (string * jsval)).

(** [!!v] *)
Definition truthy (v : jsval) : bool :=
  match v with
  | JUndefined | JNull => false
  | JBool b => b
  | JNum n => negb (n =? 0)
  | JStr s => negb (String.eqb s "")
  | JArr _ | JObj _ => true
  end.

(** Reading a property that holds a string, [undefined] when it is absent. *)
Definition prop (o : option string) : jsval :=
  match o with Some s => JStr s | None => JUndefined end.

(** [x && x.length] for a property that holds an array. *)
Definition nonempty {A} (o : option (list A)) : bool :=
  match o with Some (_ :: _) => true | _ => false end.

Inductive js_error :=
| TypeError (what : string)
| ReferenceError (what : string).

(** The members of [Object.prototype], each with the value of its [length]
    property: the arity of a method, and none for [__proto__], whose read
    yields [Object.prototype] itself. *)
Definition object_prototype : list (string * option Z) :=
  [("constructor", Some 1);
   ("__defineGetter__", Some 2);
   ("__defineSetter__", Some 2);
   ("hasOwnProperty", Some 1);
   ("__lookupGetter__", Some 1);
   ("__lookupSetter__", Some 1);
   ("isPrototypeOf", Some 1);
   ("propertyIsEnumerable", Some 1);
   ("toString", Some 0);
   ("valueOf", Some 0);
   ("__proto__", None);
   ("toLocaleString", Some 0)].

Fixpoint member (name : string) (members : list (string * option Z))
    : option (option Z) :=
  match members with
  | [] => None
  | (n, len) :: rest => if String.eqb n name then Some len else member name rest
  end.

Definition is_member (name : string) : bool :=
  match member name object_prototype with Some _ => true | None => false end.

(** What [object[key]] yields on a plain object: the own property, else the
    inherited member of that name, else [undefined]. *)
Inductive read (V : Type) :=
| Own (v : V)
| Inherited (name : string)
| Absent.
Arguments Own {V} v.
Arguments Inherited {V} name.
Arguments Absent {V}.

Definition obj_get {V} (object : gmap string V) (key : string) : read V :=
  match object !! key with
  | Some v => Own v
  | None => if is_member key then Inherited key else Absent
  end.

(** [object[key] = v] for a string [v]: the setter of [__proto__] ignores a
    primitive, every other key gets an own property. *)
Definition obj_set (key v : string) (object : gmap string string)
    : gmap string string :=
  match object !! key with
  | None => if String.eqb key "__proto__" then object else <[key := v]> object
  | Some _ => <[key := v]> object
  end.

(** [!!r] for a read that holds a string when it is an own property; the
    inherited members are functions or objects. *)
Definition read_truthy (r : read string) : bool :=
  match r with
  | Own s => truthy (JStr s)
  | Inherited _ => true
  | Absent => false
  end.

(** [!!r] for a read that holds an array when it is an own property. *)
Definition array_truthy {A} (r : read (list A)) : bool :=
  match r with
  | Own _ | Inherited _ => true
  | Absent => false
  end.

(** [r && r.length] for such a read. *)
Definition array_nonempty {A} (r : read (list A)) : bool :=
  match r with
  | Own (_ :: _) => true
  | Own [] => false
  | Inherited name =>
      match member name object_prototype with
      | Some (Some len) => negb (len =? 0)
      | _ => false
      end
  | Absent => false
  end.

End Js.
Export Js.

Module Server.

(** A socket as the handlers see it: [socket.id] and
    [socket.handshake.address]. *)
Record socket := mkSocket { sock_id : string; handshake_address : string }.

Inductive action :=
| IoTo (room ev : string) (payload : jsval)
    (* io.to(room).emit(ev, payload) *)
| IoToInherited (member ev : string) (payload : jsval)
    (* io.to(m).emit(ev, payload), m the inherited member of that name *)
| SocketEmit (sid ev : string) (payload : jsval)
    (* socket.emit(ev, payload) *)
| SocketTo (sid room ev : string) (payload : jsval)
    (* socket.to(room).emit(ev, payload) *)
| ConsoleError (keyPrefix : string) (statusCode : option Z).
    (* console.error of a failed push *)

Record state := mkState {
  rateLimit : gmap string record;
  userSockets : gmap string string;
      (* pubKey -> socket.id *)
  presenceSubscriptions : gmap string (list string);
      (* pubKey -> ids of the sockets subscribed to it *)
  socketSubscriptions : gmap string (list string);
      (* socket.id -> the pubKeys it subscribed to *)
  socketData : gmap string string;
      (* socket.id -> socket.data.pubKey, when set *)
  rooms : gmap string (gset string);
      (* socket.io rooms: room -> ids of the sockets in it *)
  storage : gmap string jsval
      (* the node-persist store *)
}.

Definition initial : state := mkState ∅ ∅ ∅ ∅ ∅ ∅ ∅.

Definition set_rateLimit (rl : gmap string record) (st : state) : state :=
  mkState rl (userSockets st) (presenceSubscriptions st)
    (socketSubscriptions st) (socketData st) (rooms st) (storage st).
Definition set_userSockets (f : gmap string string → gmap string string)
    (st : state) : state :=
  mkState (rateLimit st) (f (userSockets st)) (presenceSubscriptions st)
    (socketSubscriptions st) (socketData st) (rooms st) (storage st).
Definition set_presenceSubscriptions
    (f : gmap string (list string) → gmap string (list string))
    (st : state) : state :=
  mkState (rateLimit st) (userSockets st) (f (presenceSubscriptions st))
    (socketSubscriptions st) (socketData st) (rooms st) (storage st).
Definition set_socketSubscriptions
    (f : gmap string (list string) → gmap string (list string))
    (st : state) : state :=
  mkState (rateLimit st) (userSockets st) (presenceSubscriptions st)
    (f (socketSubscriptions st)) (socketData st) (rooms st) (storage st).
Definition set_socketData (f : gmap string string → gmap string string)
    (st : state) : state :=
  mkState (rateLimit st) (userSockets st) (presenceSubscriptions st)
    (socketSubscriptions st) (f (socketData st)) (rooms st) (storage st).
Definition set_rooms
    (f : gmap string (gset string) → gmap string (gset string))
    (st : state) : state :=
  mkState (rateLimit st) (userSockets st) (presenceSubscriptions st)
    (socketSubscriptions st) (socketData st) (f (rooms st)) (storage st).
Definition set_storage (f : gmap string jsval → gmap string jsval)
    (st : state) : state :=
  mkState (rateLimit st) (userSockets st) (presenceSubscriptions st)
    (socketSubscriptions st) (socketData st) (rooms st) (f (storage st)).

(** *** The handler monad: state, emitted actions, exceptions *)

Inductive outcome (A : Type) :=
| Returned (a : A) (st : state) (out : list action)
| Thrown (e : js_error) (st : state) (out : list action).
Arguments Returned {A} a st out.
Arguments Thrown {A} e st out.

Definition M (A : Type) : Type := state → outcome A.

Definition ret {A} (a : A) : M A := λ st, Returned a st [].

Definition bind {A B} (m : M A) (f : A → M B) : M B := λ st,
  match m st with
  | Returned a st1 out1 =>
      match f a st1 with
      | Returned b st2 out2 => Returned b st2 (out1 ++ out2)
      | Thrown e st2 out2 => Thrown e st2 (out1 ++ out2)
      end
  | Thrown e st1 out1 => Thrown e st1 out1
  end.

Declare Scope handler_scope.
Notation "x ← m ; k" := (bind m (λ x, k))
  (at level 20, m at level 100, k at level 200, only parsing) : handler_scope.
Notation "m ;; k" := (bind m (λ _, k))
  (at level 100, k at level 200, only parsing, right associativity)
  : handler_scope.
Local Open Scope handler_scope.

Definition gets {A} (f : state → A) : M A := λ st, Returned (f st) st [].
Definition modify (f : state → state) : M unit := λ st, Returned tt (f st) [].
Definition emit (a : action) : M unit := λ st, Returned tt st [a].
Definition throw {A} (e : js_error) : M A := λ st, Thrown e st [].

(** [xs.forEach(f)] *)
Fixpoint forEach {A} (xs : list A) (f : A → M unit) : M unit :=
  match xs with
  | [] => ret tt
  | x :: rest => f x ;; forEach rest f
  end.

Definition final_state {A} (o : outcome A) : state :=
  match o with Returned _ st _ | Thrown _ st _ => st end.
Definition emitted {A} (o : outcome A) : list action :=
  match o with Returned _ _ out | Thrown _ _ out => out end.
Definition returned {A} (o : outcome A) : bool :=
  match o with Returned _ _ _ => true | Thrown _ _ _ => false end.

(** *** Delivery: which sockets an emitted action reaches

    [io.to(room)] reaches every socket in the room; a room that is not a
    string (an inherited member) holds nobody. [socket.emit] reaches the
    socket itself. [socket.to(room)] reaches every socket in the room
    except those in the room named by the sender's id, the sender among
    them as long as it is attached. *)
Definition members (rs : gmap string (gset string)) (room : string)
    : gset string :=
  default ∅ (rs !! room).

Definition receives (rs : gmap string (gset string)) (x : string)
    (a : action) : option (string * jsval) :=
  match a with
  | IoTo room ev payload =>
      if bool_decide (x ∈ members rs room) then Some (ev, payload) else None
  | SocketEmit sid ev payload =>
      if bool_decide (x = sid) then Some (ev, payload) else None
  | SocketTo sid room ev payload =>
      if bool_decide (x ∈ members rs room ∧ x ∉ members rs sid)
      then Some (ev, payload) else None
  | IoToInherited _ _ _ | ConsoleError _ _ => None
  end.

(** The events socket [x] receives from a list of emitted actions. *)
Definition inbox (rs : gmap string (gset string)) (x : string)
    (out : list action) : list (string * jsval) :=
  omap (receives rs x) out.

(** *** Handlers *)

Definition rate_limited (socket : socket) (now : Z) : M bool := λ st,
  let '(blocked, rl) := isRateLimited (handshake_address socket) now (rateLimit st) in
  Returned blocked (set_rateLimit rl st) [].

Definition presence_payload (key status : string) : jsval :=
  JObj [("pubKey", JStr key); ("status", JStr status)].

(** [io.to(target).emit(ev, payload)] for a truthy registry read. *)
Definition io_to (target : read string) (ev : string) (payload : jsval)
    : M unit :=
  match target with
  | Own targetSocketId => emit (IoTo targetSocketId ev payload)
  | Inherited name => emit (IoToInherited name ev payload)
  | Absent => ret tt
  end.

(** The fan-out of lines 192-198 and 363-369. An inherited member with a
    positive [length] passes the test and has no [forEach]. *)
Definition notify (key status : string) : M unit :=
  subscribers ← gets (λ st, obj_get (presenceSubscriptions st) key) ;
  if array_nonempty subscribers then
    match subscribers with
    | Own ids =>
        forEach ids (λ subscriberSocketId,
          emit (IoTo subscriberSocketId "presence-update"
                  (presence_payload key status)))
    | _ => throw (TypeError "subscribers.forEach is not a function")
    end
  else ret tt.

(** [socket.on("register", ...)], lines 180-199. The argument is [None] when
    the client sent none. *)
Definition on_register (socket : socket) (pubKey : option string) (now : Z)
    : M unit :=
  limited ← rate_limited socket now ;
  if limited then ret tt else
  if negb (truthy (prop pubKey)) then ret tt else
  let key := normKey (default "" pubKey) in
  modify (set_userSockets (obj_set key (sock_id socket))) ;;
  modify (set_socketData <[sock_id socket := key]>) ;;
  notify key "online".

(** The body of the clean-up loops, lines 211-216 and 375-380. An inherited
    member passes the test and has no [filter]. *)
Definition drop_subscriber (sid pubKey : string) : M unit :=
  entry ← gets (λ st, obj_get (presenceSubscriptions st) pubKey) ;
  match entry with
  | Own ids =>
      let kept := filter (λ id, id ≠ sid) ids in
      modify (set_presenceSubscriptions <[pubKey := kept]>) ;;
      if decide (kept = [])
      then modify (set_presenceSubscriptions (delete pubKey))
      else ret tt
  | Inherited _ =>
      throw (TypeError "presenceSubscriptions[pubKey].filter is not a function")
  | Absent => ret tt
  end.

(** The body of the loop of lines 222-228. An inherited member passes the
    test of line 224, so no list is created, and it has no [push]. *)
Definition add_subscriber (sid pubKey : string) : M unit :=
  let key := normKey pubKey in
  entry ← gets (λ st, obj_get (presenceSubscriptions st) key) ;
  (if negb (array_truthy entry)
   then modify (set_presenceSubscriptions <[key := []]>)
   else ret tt) ;;
  entry ← gets (λ st, obj_get (presenceSubscriptions st) key) ;
  match entry with
  | Own ids => modify (set_presenceSubscriptions <[key := ids ++ [sid]]>)
  | _ => throw (TypeError "presenceSubscriptions[key].push is not a function")
  end.

(** [socket.on("subscribe-to-presence", ...)], lines 204-233. The argument
    is [None] when the client sent none: [contactPubKeys.length] on line 205
    then throws. *)
Definition on_subscribe_to_presence (socket : socket)
    (contactPubKeys : option (list string)) : M unit :=
  match contactPubKeys with
  | None => throw (TypeError "Cannot read properties of undefined")
  | Some contactPubKeys =>
      let sid := sock_id socket in
      oldSubscriptions ← gets (λ st, socketSubscriptions st !! sid) ;
      (if nonempty oldSubscriptions then
         forEach (default [] oldSubscriptions) (drop_subscriber sid)
       else ret tt) ;;
      modify (set_socketSubscriptions <[sid := contactPubKeys]>) ;;
      forEach contactPubKeys (add_subscriber sid) ;;
      us ← gets userSockets ;
      let initialOnlineContacts :=
        List.filter (λ key, read_truthy (obj_get us (normKey key)))
          contactPubKeys in
      emit (SocketEmit sid "presence-initial-status"
              (JArr (JStr <$> initialOnlineContacts)))
  end.

Definition slice_0_12 (s : string) : string := substring 0 12 s.

(** [err.statusCode]: the errors of the language carry none. *)
Definition statusCode (err : js_error) : option Z := None.

(** [err.statusCode === 404 || err.statusCode === 410] *)
Definition expired (statusCode : option Z) : bool :=
  match statusCode with
  | Some c => (c =? 404) || (c =? 410)
  | None => false
  end.

(** [socket.on("request-connection", ...)], lines 236-277. The file never
    declares [webpush]: inside the [try], evaluating it raises a
    [ReferenceError] before anything is sent, and the [catch] logs it. After
    its first [await] the handler touches only the store, so running it in
    one piece loses nothing for the three indices. *)
Definition on_request_connection (socket : socket) (to from : string)
    (now : Z) : M unit :=
  limited ← rate_limited socket now ;
  if limited then ret tt else
  let toKey := normKey to in
  let fromKey := normKey from in
  targetSocketId ← gets (λ st, obj_get (userSockets st) toKey) ;
  if read_truthy targetSocketId then
    io_to targetSocketId "incoming-request" (JObj [("from", JStr fromKey)])
  else
    subscription ← gets (λ st, storage st !! ("sub_" +:+ toKey)) ;
    match subscription with
    | Some sub =>
        if truthy sub then
          let err := ReferenceError "webpush is not defined" in
          emit (ConsoleError (slice_0_12 toKey) (statusCode err)) ;;
          if expired (statusCode err)
          then modify (set_storage (delete ("sub_" +:+ toKey)))
          else ret tt
        else ret tt
    | None => ret tt
    end.

(** [socket.on("join", ...)], lines 327-330: [socket.join(room)]. *)
Definition on_join (socket : socket) (room : string) : M unit :=
  modify (set_rooms (λ rs, <[room := {[sock_id socket]} ∪ members rs room]> rs)).

Definition room_payload (room : string) (payload : jsval) : jsval :=
  JObj [("room", JStr room); ("payload", payload)].

(** [socket.on("auth", ...)], lines 333-347. *)
Definition on_auth (socket : socket) (room : string) (payload : jsval)
    : M unit :=
  emit (SocketTo (sock_id socket) room "auth" (room_payload room payload)).

(** [socket.on("signal", ...)], lines 350-355. *)
Definition on_signal (socket : socket) (room : string) (payload : jsval)
    : M unit :=
  emit (SocketTo (sock_id socket) room "signal" (room_payload room payload)).

(** [socket.on("disconnect", ...)], lines 357-389. *)
Definition on_disconnect (socket : socket) : M unit :=
  let sid := sock_id socket in
  pubKey ← gets (λ st, socketData st !! sid) ;
  if truthy (prop pubKey) then
    let pubKey := default "" pubKey in
    notify pubKey "offline" ;;
    subscriptionsMadeByThisSocket ← gets (λ st, socketSubscriptions st !! sid) ;
    (if nonempty subscriptionsMadeByThisSocket then
       forEach (default [] subscriptionsMadeByThisSocket) (drop_subscriber sid)
     else ret tt) ;;
    modify (set_socketSubscriptions (delete sid)) ;;
    modify (set_userSockets (delete pubKey))
  else ret tt.

(** *** The transport around the handlers

    A new socket is in the room named by its own id and carries no data; a
    closing socket has left every room by the time its disconnect handler
    runs. *)
Definition attach (socket : socket) : M unit :=
  let sid := sock_id socket in
  modify (set_socketData (delete sid)) ;;
  modify (set_rooms (λ rs, <[sid := {[sid]} ∪ members rs sid]> rs)).

Definition detach (socket : socket) : M unit :=
  modify (set_rooms (fmap (λ ids, ids ∖ {[sock_id socket]}))) ;;
  on_disconnect socket.

Inductive event :=
| Connection (socket : socket)
| Register (socket : socket) (pubKey : option string) (now : Z)
| SubscribeToPresence (socket : socket) (contactPubKeys : option (list string))
| RequestConnection (socket : socket) (to from : string) (now : Z)
| Join (socket : socket) (room : string)
| Auth (socket : socket) (room : string) (payload : jsval)
| Signal (socket : socket) (room : string) (payload : jsval)
| Disconnect (socket : socket).

Definition handle (e : event) : M unit :=
  match e with
  | Connection s => attach s
  | Register s pubKey now => on_register s pubKey now
  | SubscribeToPresence s keys => on_subscribe_to_presence s keys
  | RequestConnection s to from now => on_request_connection s to from now
  | Join s room => on_join s room
  | Auth s room payload => on_auth s room payload
  | Signal s room payload => on_signal s room payload
  | Disconnect s => detach s
  end.

(** The server state after a history of events, each run to completion; a
    throw ends the history. *)
Definition after (history : list event) (st : state) : state :=
  final_state (forEach history handle st).

(** [lookup]: the registry resolution every relay handler performs,
    [userSockets[normKey(to)]]. *)
Definition lookup (st : state) (identity : string) : read string :=
  obj_get (userSockets st) (normKey identity).

End Server.
Export Server.

(** ** The other relay handlers (lines 280-322) *)

Module Calls.

Local Open Scope handler_scope.

(** [socket.on("accept-connection", ...)], lines 280-288. *)
Definition on_accept_connection (socket : socket) (to from : string)
    : M unit :=
  targetId ← gets (λ st, obj_get (userSockets st) (normKey to)) ;
  if read_truthy targetId then
    io_to targetId "connection-accepted"
      (JObj [("from", JStr (normKey from))])
  else ret tt.

(** [socket.on("call-request", ...)], lines 292-298. *)
Definition on_call_request (socket : socket) (to from : string)
    (callType : jsval) : M unit :=
  targetId ← gets (λ st, obj_get (userSockets st) (normKey to)) ;
  if read_truthy targetId then
    io_to targetId "incoming-call"
      (JObj [("from", JStr (normKey from)); ("callType", callType)])
  else ret tt.

(** [socket.on("call-accepted", ...)], lines 300-306. *)
Definition on_call_accepted (socket : socket) (to from : string) : M unit :=
  targetId ← gets (λ st, obj_get (userSockets st) (normKey to)) ;
  if read_truthy targetId then
    io_to targetId "call-accepted" (JObj [("from", JStr (normKey from))])
  else ret tt.

(** [socket.on("call-rejected", ...)], lines 308-314. *)
Definition on_call_rejected (socket : socket) (to from : string) : M unit :=
  targetId ← gets (λ st, obj_get (userSockets st) (normKey to)) ;
  if read_truthy targetId then
    io_to targetId "call-rejected" (JObj [("from", JStr (normKey from))])
  else ret tt.

(** [socket.on("call-ended", ...)], lines 316-322. *)
Definition on_call_ended (socket : socket) (to from : string) : M unit :=
  targetId ← gets (λ st, obj_get (userSockets st) (normKey to)) ;
  if read_truthy targetId then
    io_to targetId "call-ended" (JObj [("from", JStr (normKey from))])
  else ret tt.

(** The five identity-addressed messages that bypass the rate limiter. *)
Inductive direct :=
| AcceptConnection
| CallRequest (callType : jsval)
| CallAccepted
| CallRejected
| CallEnded.

Definition on_direct (kind : direct) (socket : socket) (to from : string)
    : M unit :=
  match kind with
  | AcceptConnection => on_accept_connection socket to from
  | CallRequest callType => on_call_request socket to from callType
  | CallAccepted => on_call_accepted socket to from
  | CallRejected => on_call_rejected socket to from
  | CallEnded => on_call_ended socket to from
  end.

(** The event and payload the target receives for each kind. *)
Definition direct_event (kind : direct) (from : string) : string * jsval :=
  let plain := JObj [("from", JStr (normKey from))] in
  match kind with
  | AcceptConnection => ("connection-accepted", plain)
  | CallRequest callType =>
      ("incoming-call",
       JObj [("from", JStr (normKey from)); ("callType", callType)])
  | CallAccepted => ("call-accepted", plain)
  | CallRejected => ("call-rejected", plain)
  | CallEnded => ("call-ended", plain)
  end.

End Calls.
Export Calls.

(** ** The ID directory endpoints (lines 30-120)

    The endpoints work on the same store as the relay. Each request is
    taken to run to completion before the next one touches the store. The
    order in which [storage.keys()] and [storage.data()] list the store is
    an input. The store drops an item when its [ttl] has run out; that is a
    removal between two requests and is not part of a handler. *)

Module Directory.

Record response := mkResponse { status : Z; body : jsval }.

Inductive store_op :=
| SetItem (key : string) (value : jsval) (ttl : option Z)
| RemoveItem (key : string).

Definition apply_op (store : gmap string jsval) (op : store_op)
    : gmap string jsval :=
  match op with
  | SetItem key value _ => <[key := value]> store
  | RemoveItem key => delete key store
  end.

Definition apply_ops (ops : list store_op) (store : gmap string jsval)
    : gmap string jsval :=
  foldl apply_op store ops.

Fixpoint assoc (name : string) (fields : list (string * jsval)) : jsval :=
  match fields with
  | [] => JUndefined
  | (n, v) :: rest => if String.eqb n name then v else assoc name rest
  end.

(** [item.name] for a value that is not [null] or [undefined]. *)
Definition field (name : string) (item : jsval) : jsval :=
  match item with
  | JObj fields => assoc name fields
  | _ => JUndefined
  end.

(** [v === s] for a string [s]. *)
Definition is_string (s : string) (v : jsval) : bool :=
  match v with JStr t => String.eqb t s | _ => false end.

Definition error (message : string) : jsval :=
  JObj [("error", JStr message)].

(** The body of [POST /claim-id]; a field is [None] when it is absent. *)
Record claim := mkClaim {
  customId : option string;
  fullInviteCode : option string;
  persistence : option string;
  pubKey : option string;
  privacy : option string
}.

(** The loop of lines 39-44: some listed key other than [customId] holds an
    item of [pubKey]. *)
Fixpoint owns_other_id (store : gmap string jsval) (pubKey customId : string)
    (allKeys : list string) : bool :=
  match allKeys with
  | [] => false
  | key :: rest =>
      let item := default JUndefined (store !! key) in
      if truthy item && is_string pubKey (field "pubKey" item)
         && negb (String.eqb key customId)
      then true
      else owns_other_id store pubKey customId rest
  end.

Definition claim_value (fullInviteCode persistence pubKey privacy : string)
    : jsval :=
  JObj [("code", JStr fullInviteCode);
        ("pubKey", JStr pubKey);
        ("permanent", JBool (String.eqb persistence "permanent"));
        ("privacy", JStr privacy)].

Definition claim_ttl (persistence : string) : option Z :=
  if String.eqb persistence "temporary" then Some (24 * 60 * 60 * 1000)
  else None.

(** [app.post("/claim-id", ...)], lines 30-65. *)
Definition claim_id (req : claim) (allKeys : list string)
    (store : gmap string jsval) : response * list store_op :=
  if negb (truthy (prop (customId req)) && truthy (prop (fullInviteCode req))
           && truthy (prop (persistence req)) && truthy (prop (pubKey req))
           && truthy (prop (privacy req)))
  then (mkResponse 400 (error "Missing required fields"), [])
  else
    let customId := default "" (customId req) in
    let fullInviteCode := default "" (fullInviteCode req) in
    let persistence := default "" (persistence req) in
    let pubKey := default "" (pubKey req) in
    let privacy := default "" (privacy req) in
    if owns_other_id store pubKey customId allKeys
    then (mkResponse 409
            (error ("You already own a different ID. " +:+
                    "Please delete it before claiming a new one.")), [])
    else
      let existingItem := default JUndefined (store !! customId) in
      if truthy existingItem
         && negb (is_string pubKey (field "pubKey" existingItem))
      then (mkResponse 409 (error "ID already taken"), [])
      else
        (mkResponse 200 (JObj [("success", JBool true); ("id", JStr customId)]),
         [SetItem customId
            (claim_value fullInviteCode persistence pubKey privacy)
            (claim_ttl persistence)]).

(** [app.get("/get-invite/:id", ...)], lines 68-83. *)
Definition get_invite (id : string) (store : gmap string jsval) : response :=
  let fullId := "syrja/" +:+ id in
  let item := default JUndefined (store !! fullId) in
  if truthy item && truthy (field "code" item) then
    if is_string "private" (field "privacy" item)
    then mkResponse 403 (error "This ID is private")
    else mkResponse 200 (JObj [("fullInviteCode", field "code" item)])
  else mkResponse 404 (error "ID not found or has expired").

(** [app.get("/get-id-by-pubkey/:pubkey", ...)], lines 86-102. *)
Fixpoint get_id_by_pubkey (pubkey : string) (allKeys : list string)
    (store : gmap string jsval) : response :=
  match allKeys with
  | [] => mkResponse 404 (error "No ID found for this public key")
  | key :: rest =>
      let item := default JUndefined (store !! key) in
      if truthy item && is_string pubkey (field "pubKey" item)
      then mkResponse 200
             (JObj [("id", JStr key); ("permanent", field "permanent" item)])
      else get_id_by_pubkey pubkey rest store
  end.

(** [allItems.find(item => item.value.pubKey === pubKey)?.key], line 110,
    over the data the store lists; reading [pubKey] off a [null] or
    [undefined] value throws. *)
Fixpoint find_key (pubKey : string) (allItems : list (string * jsval))
    : js_error + option string :=
  match allItems with
  | [] => inr None
  | (key, value) :: rest =>
      match value with
      | JUndefined | JNull =>
          inl (TypeError "Cannot read properties of undefined")
      | _ => if is_string pubKey (field "pubKey" value) then inr (Some key)
             else find_key pubKey rest
      end
  end.

(** [app.post("/delete-id", ...)], lines 105-120. *)
Definition delete_id (pubKey : option string)
    (allItems : list (string * jsval))
    : js_error + response * list store_op :=
  if negb (truthy (prop pubKey))
  then inr (mkResponse 400 (error "Public key is required"), [])
  else
    match find_key (default "" pubKey) allItems with
    | inl e => inl e
    | inr keyToDelete =>
        if truthy (prop keyToDelete)
        then inr (mkResponse 200 (JObj [("success", JBool true)]),
                  [RemoveItem (default "" keyToDelete)])
        else inr (mkResponse 200
                    (JObj [("success", JBool true);
                           ("message", JStr "No ID found to delete")]), [])
    end.

End Directory.
Export Directory.
(** ** Specification vocabulary *)

(** A call at [now] opens a window for [ip]: the address has no record, or
    its last window has elapsed. *)
Definition opens_window (ip : string) (now : Z)
    (rateLimit : gmap string record) : Prop :=
  match rateLimit !! ip with
  | None => True
  | Some rec => TIME_FRAME < now - startTime rec
  end.

(** The rate limiter lets the call of [socket] at [now] through. *)
Definition admitted (socket : socket) (now : Z) (st : state) : Prop :=
  fst (isRateLimited (handshake_address socket) now (rateLimit st)) = false.

(** Socket ids are never empty. *)
Definition ids_nonempty (st : state) : Prop :=
  map_Forall (λ _ sid, sid ≠ "") (userSockets st).

#[global] Instance admitted_dec s now st : Decision (admitted s now st).
Proof. unfold admitted. apply _. Defined.

(** A key that names no member of [Object.prototype]. *)
Definition plain_key (key : string) : Prop := is_member key = false.

(** A key under which the test [subscribers && subscribers.length] fails
    when there is no own list: it names no inherited member with a positive
    [length]. *)
Definition notifiable (key : string) : Prop :=
  array_nonempty (@Inherited (list string) key) = false.

#[global] Instance plain_key_dec key : Decision (plain_key key).
Proof. unfold plain_key. apply _. Defined.

#[global] Instance notifiable_dec key : Decision (notifiable key).
Proof. unfold notifiable. apply _. Defined.

(** The subscriber list stored under a key, empty when there is none. *)
Definition subs_of (ps : gmap string (list string)) (key : string)
    : list string :=
  default [] (ps !! key).

(** Every subscriber list sits under a plain key: the handlers never create
    a list under the name of an inherited member. *)
Definition presence_plain (st : state) : Prop :=
  map_Forall (λ key _, plain_key key) (presenceSubscriptions st).

(** The keys in the forward entry of socket [sid] are plain, as they are
    after every subscription request that returned. *)
Definition forward_plain (st : state) (sid : string) : Prop :=
  Forall plain_key (subs_of (socketSubscriptions st) sid).

(** The keys that sockets carry pass the fan-out test, as they do after
    every registration that returned. *)
Definition data_notifiable (st : state) : Prop :=
  map_Forall (λ _ key, notifiable key) (socketData st).

(** The three conditions together: they hold in the empty server and after
    every handler that returns. *)
Definition plain_state (st : state) : Prop :=
  presence_plain st ∧ (∀ sid, forward_plain st sid) ∧ data_notifiable st.

(** The presence pushes for one status change, one per subscriber entry. *)
Definition fan_out (key status : string) (subscribers : list string)
    : list action :=
  (λ sub, IoTo sub "presence-update" (presence_payload key status))
    <$> subscribers.

(** The part of the state the rate limiter does not touch. *)
Definition same_indices (st st' : state) : Prop :=
  userSockets st' = userSockets st
  ∧ presenceSubscriptions st' = presenceSubscriptions st
  ∧ socketSubscriptions st' = socketSubscriptions st.

(** The state a registration that passes the guards leaves behind. *)
Definition registered (s : socket) (key : string) (now : Z) (st : state)
    : state :=
  set_socketData <[sock_id s := key]>
    (set_userSockets (obj_set key (sock_id s))
      (set_rateLimit
        (snd (isRateLimited (handshake_address s) now (rateLimit st))) st)).

(** One step of the clean-up loop on own subscriber lists. *)
Definition drop_own (sid : string) (ps : gmap string (list string))
    (pubKey : string) : gmap string (list string) :=
  match ps !! pubKey with
  | Some ids =>
      let kept := filter (λ id, id ≠ sid) ids in
      if decide (kept = []) then delete pubKey (<[pubKey := kept]> ps)
      else <[pubKey := kept]> ps
  | None => ps
  end.

(** One step of the subscription loop on own subscriber lists. *)
Definition add_own (sid : string) (ps : gmap string (list string))
    (pubKey : string) : gmap string (list string) :=
  <[normKey pubKey := subs_of ps (normKey pubKey) ++ [sid]]> ps.

(** The reverse index once every key of the socket's forward entry has been
    visited by the clean-up loop. *)
Definition pruned (sid : string) (st : state) : gmap string (list string) :=
  foldl (drop_own sid) (presenceSubscriptions st)
    (subs_of (socketSubscriptions st) sid).

(** The state a subscription request leaves behind when neither loop
    throws. *)
Definition subscribed (s : socket) (K : list string) (st : state) : state :=
  mkState (rateLimit st) (userSockets st)
    (foldl (add_own (sock_id s)) (pruned (sock_id s) st) K)
    (<[sock_id s := K]> (socketSubscriptions st))
    (socketData st) (rooms st) (storage st).

(** The state the teardown of a socket that carries [key] leaves behind
    when nothing throws. *)
Definition torn_down (s : socket) (key : string) (st : state) : state :=
  mkState (rateLimit st) (delete key (userSockets st))
    (pruned (sock_id s) st) (delete (sock_id s) (socketSubscriptions st))
    (socketData st) ((λ ids, ids ∖ {[sock_id s]}) <$> rooms st)
    (storage st).

(** The identities of a request that have an own registry entry. *)
Definition online_subset (st : state) (K : list string) : list string :=
  List.filter (λ k, bool_decide (is_Some (userSockets st !! normKey k))) K.

(** The key under which the store keeps the push subscription of an
    identity. *)
Definition push_key (to : string) : string := "sub_" +:+ normKey to.

(** What a [request-connection] for an identity that reads as not
    registered leaves on the error console: the failure of the push, when
    the store holds a subscription for the identity. *)
Definition push_log (st : state) (to : string) : list action :=
  match storage st !! push_key to with
  | Some sub =>
      if truthy sub then [ConsoleError (slice_0_12 (normKey to)) None] else []
  | None => []
  end.

(** What a relay handler emits for a registry read. *)
Definition relay_to (target : read string) (e : string * jsval)
    : list action :=
  match target with
  | Own targetId =>
      if truthy (JStr targetId) then [IoTo targetId e.1 e.2] else []
  | Inherited name => [IoToInherited name e.1 e.2]
  | Absent => []
  end.

(** The reverse index lists socket [sid] under [key]. *)
Definition mentions (ps : gmap string (list string)) (sid key : string)
    : Prop :=
  ∃ ids, ps !! key = Some ids ∧ sid ∈ ids.

(** The reverse index restricted to [sid] is the transpose of the forward
    entry of [sid]. *)
Definition transposed (st : state) (sid : string) : Prop :=
  ∀ key, mentions (presenceSubscriptions st) sid key
         ↔ key ∈ subs_of (socketSubscriptions st) sid.

(** An event whose subscription request, if it is one, carries plain keys
    in normal form. *)
Definition tidy (e : event) : Prop :=
  match e with
  | SubscribeToPresence _ (Some K) =>
      Forall (λ k, normalized k ∧ plain_key k) K
  | _ => True
  end.

(** What the subscription and clean-up steps of socket [sid] leave alone:
    the other sockets' share of both subscription indices, the registry
    except possibly under [key], and the rest of the state. *)
Definition others_kept (sid : string) (key : option string)
    (st st' : state) : Prop :=
  rateLimit st' = rateLimit st
  ∧ socketData st' = socketData st
  ∧ storage st' = storage st
  ∧ rooms st' = rooms st
  ∧ (∀ k, key ≠ Some k → userSockets st' !! k = userSockets st !! k)
  ∧ (∀ k, filter (λ id, id ≠ sid) (subs_of (presenceSubscriptions st') k)
          = filter (λ id, id ≠ sid) (subs_of (presenceSubscriptions st) k))
  ∧ (∀ x, x ≠ sid → socketSubscriptions st' !! x = socketSubscriptions st !! x).

(** A run of [register] calls, each with its socket, argument and time. *)
Definition register_calls (calls : list (socket * option string * Z))
    : M unit :=
  forEach calls (λ call, on_register call.1.1 call.1.2 call.2).

(** How often socket [sid] occurs in a subscriber list. *)
Definition occurrences (sid : string) (ids : list string) : nat :=
  length (filter (λ id, id = sid) ids).

(** The item stored under [key] carries [pubKey] as its owner. *)
Definition owned_by (store : gmap string jsval) (key pubKey : string)
    : Prop :=
  ∃ item, store !! key = Some item ∧ field "pubKey" item = JStr pubKey.

(** No public key owns two IDs. *)
Definition one_id_per_key (store : gmap string jsval) : Prop :=
  ∀ k1 k2 p, owned_by store k1 p → owned_by store k2 p → k1 = k2.

(** [storage.keys()] lists at least the keys of the items in the store. *)
Definition lists_store (allKeys : list string) (store : gmap string jsval)
    : Prop :=
  ∀ k, is_Some (store !! k) → k ∈ allKeys.

(** A request field is absent or the empty string. *)
Definition missing (o : option string) : Prop := o = None ∨ o = Some "".

(** A request field is there and holds the non-empty string [s]. *)
Definition present (o : option string) (s : string) : Prop :=
  o = Some s ∧ s ≠ "".

(** [storage.data()] lists exactly the items in the store. *)
Definition lists_data (allItems : list (string * jsval))
    (store : gmap string jsval) : Prop :=
  ∀ k v, (k, v) ∈ allItems ↔ store !! k = Some v.

(** A stored value off which a property can be read. *)
Definition readable (v : jsval) : Prop := v ≠ JNull ∧ v ≠ JUndefined.

(** * Part II: properties *)

(** ** Normalizer *)

Section normalizer.

Lemma normKey_no_space k c rest :
  normKey k = String c rest → is_space c = false.
Proof.
  induction k as [|d k IH]; simpl; [discriminate|].
  destruct (is_space d) eqn:E; [exact IH|].
  intros H; injection H as -> _; exact E.
Qed.

Lemma normKey_idempotent k : normKey (normKey k) = normKey k.
Proof.
  induction k as [|c k IH]; simpl; [reflexivity|].
  destruct (is_space c) eqn:E; [exact IH|].
  simpl; rewrite E, IH; reflexivity.
Qed.

Lemma normKey_normalized k : normalized (normKey k).
Proof. apply normKey_idempotent. Qed.

End normalizer.

(** ** Rate limiter *)

Section rate_limiter.

Variable ip : string.

Lemma isRateLimited_fresh now rl :
  opens_window ip now rl →
  isRateLimited ip now rl = (false, <[ip := mkRecord 1 now]> rl).
Proof.
  unfold opens_window, isRateLimited.
  destruct (rl !! ip) as [rec|]; [|reflexivity].
  intros H. apply Z.ltb_lt in H. rewrite H. reflexivity.
Qed.

Lemma isRateLimited_below now rl c t0 :
  rl !! ip = Some (mkRecord c t0) →
  now - t0 ≤ TIME_FRAME → c < LIMIT →
  isRateLimited ip now rl = (false, <[ip := mkRecord (c + 1) t0]> rl).
Proof.
  intros Hrec Hwin Hc. unfold isRateLimited. rewrite Hrec. simpl.
  destruct (Z.ltb_spec TIME_FRAME (now - t0)); [lia|].
  destruct (Z.leb_spec LIMIT c); [lia|]. reflexivity.
Qed.

Lemma isRateLimited_full now rl c t0 :
  rl !! ip = Some (mkRecord c t0) →
  now - t0 ≤ TIME_FRAME → LIMIT ≤ c →
  isRateLimited ip now rl = (true, rl).
Proof.
  intros Hrec Hwin Hc. unfold isRateLimited. rewrite Hrec. simpl.
  destruct (Z.ltb_spec TIME_FRAME (now - t0)); [lia|].
  destruct (Z.leb_spec LIMIT c); [reflexivity|lia].
Qed.

(** Calls inside the window, while the count stays within the ceiling, are
    all let through and each adds one to the count. *)
Lemma admits_in_window times : ∀ rl c t0,
  rl !! ip = Some (mkRecord c t0) →
  Forall (λ t, t - t0 ≤ TIME_FRAME) times →
  c + Z.of_nat (length times) ≤ LIMIT →
  fst (admits ip times rl) = replicate (length times) false
  ∧ snd (admits ip times rl) !! ip
    = Some (mkRecord (c + Z.of_nat (length times)) t0).
Proof.
  induction times as [|t times IH]; intros rl c t0 Hrec Hwin Hc.
  - simpl. rewrite Z.add_0_r. auto.
  - apply Forall_cons in Hwin as [Ht Hwin]. cbn [length] in Hc.
    cbn [admits]. rewrite (isRateLimited_below t rl c t0) by (done || lia).
    destruct (IH (<[ip := mkRecord (c + 1) t0]> rl) (c + 1) t0) as [IH1 IH2];
      [apply lookup_insert_eq | done | lia |].
    destruct (admits ip times _) as [verdicts rl2]. simpl in *.
    rewrite IH1, IH2. split; [reflexivity|]. do 2 f_equal. lia.
Qed.

Lemma admits_app times1 times2 rl :
  admits ip (times1 ++ times2) rl =
  (fst (admits ip times1 rl) ++ fst (admits ip times2 (snd (admits ip times1 rl))),
   snd (admits ip times2 (snd (admits ip times1 rl)))).
Proof.
  revert rl. induction times1 as [|t times1 IH]; intros rl.
  - simpl. destruct (admits ip times2 rl). reflexivity.
  - cbn [admits app]. destruct (isRateLimited ip t rl) as [b rl1].
    rewrite IH. destruct (admits ip times1 rl1) as [v1 rl2]. simpl.
    destruct (admits ip times2 rl2). reflexivity.
Qed.

(** Inside a window the stored count never goes down and the window start
    stays put. *)
Lemma count_monotone now rl rec :
  rl !! ip = Some rec →
  now - startTime rec ≤ TIME_FRAME →
  ∃ rec', snd (isRateLimited ip now rl) !! ip = Some rec'
    ∧ count rec ≤ count rec' ∧ startTime rec' = startTime rec.
Proof.
  intros Hrec Hwin. unfold isRateLimited. rewrite Hrec.
  destruct (Z.ltb_spec TIME_FRAME (now - startTime rec)); [lia|].
  destruct (Z.leb_spec LIMIT (count rec)); simpl.
  - exists rec. split; [done|]. split; [lia|done].
  - eexists. rewrite lookup_insert_eq. split; [done|]. simpl. split; [lia|done].
Qed.

(** C5. With ceiling 20 and window 60000 ms, the call that opens a window
    and the next 19 calls inside it are let through, the 21st call inside
    the same window is blocked, and a call after the window has elapsed
    (at window + 1 ms or later) is let through and leaves the record at
    count 1 with a new window start; and inside a window every call leaves
    the stored count at least as high as it found it. *)
Theorem rate_limiter_window (rl : gmap string record)
    (t0 : Z) (times : list Z) (t21 t22 : Z) :
  opens_window ip t0 rl →
  length times = 19%nat →
  Forall (λ t, t - t0 ≤ TIME_FRAME) times →
  t21 - t0 ≤ TIME_FRAME →
  TIME_FRAME < t22 - t0 →
  LIMIT = 20 ∧ TIME_FRAME = 60000
  ∧ fst (admits ip (t0 :: times ++ [t21; t22]) rl)
    = replicate 20 false ++ [true; false]
  ∧ snd (admits ip (t0 :: times ++ [t21; t22]) rl) !! ip
    = Some (mkRecord 1 t22)
  ∧ (∀ now rl0 rec, rl0 !! ip = Some rec →
       now - startTime rec ≤ TIME_FRAME →
       stored_count ip rl0 ≤ stored_count ip (snd (isRateLimited ip now rl0))).
Proof.
  intros Hopen Hlen Hwin H21 H22.
  split; [reflexivity|]. split; [reflexivity|].
  assert (Hmono : ∀ now rl0 rec, rl0 !! ip = Some rec →
       now - startTime rec ≤ TIME_FRAME →
       stored_count ip rl0 ≤ stored_count ip (snd (isRateLimited ip now rl0))).
  { intros now rl0 rec Hrec Hin.
    destruct (count_monotone now rl0 rec Hrec Hin) as (rec' & Hrec' & Hle & _).
    unfold stored_count. rewrite Hrec, Hrec'. exact Hle. }
  cbn [admits]. rewrite (isRateLimited_fresh t0 rl Hopen).
  rewrite admits_app.
  destruct (admits_in_window times (<[ip := mkRecord 1 t0]> rl) 1 t0)
    as [Hv Hr]; [apply lookup_insert_eq | done | rewrite Hlen; unfold LIMIT; lia |].
  rewrite Hlen in Hv, Hr. simpl Z.add in Hr.
  destruct (admits ip times _) as [v1 rl1]. simpl fst in *. simpl snd in *.
  subst v1. cbn [admits].
  rewrite (isRateLimited_full t21 rl1 20 t0) by (done || unfold LIMIT; lia).
  assert (Hreset : isRateLimited ip t22 rl1 = (false, <[ip := mkRecord 1 t22]> rl1)).
  { apply isRateLimited_fresh. unfold opens_window. rewrite Hr. exact H22. }
  rewrite Hreset. simpl. rewrite lookup_insert_eq. auto.
Qed.

End rate_limiter.

(** The scenario of the specification: twenty calls inside a window, a
    twenty-first in its last millisecond, then one at window + 1 ms. *)
Lemma rate_limiter_window_witness :
  fst (admits "203.0.113.7" (1000 :: replicate 19 1500 ++ [61000; 61001]) ∅)
    = replicate 20 false ++ [true; false]
  ∧ snd (admits "203.0.113.7" (1000 :: replicate 19 1500 ++ [61000; 61001]) ∅)
      !! "203.0.113.7" = Some (mkRecord 1 61001).
Proof.
  pose proof (rate_limiter_window "203.0.113.7" ∅ 1000
                (replicate 19 1500) 61000 61001) as H.
  destruct H as (_ & _ & Hv & Hr & _).
  - unfold opens_window. rewrite lookup_empty. exact I.
  - reflexivity.
  - repeat constructor; unfold TIME_FRAME; lia.
  - unfold TIME_FRAME; lia.
  - unfold TIME_FRAME; lia.
  - split; [exact Hv | exact Hr].
Defined.

(** ** Plain objects *)

Section objects.

Lemma obj_get_own {V} (object : gmap string V) key v :
  object !! key = Some v → obj_get object key = Own v.
Proof. intros H. unfold obj_get. rewrite H. reflexivity. Qed.

Lemma obj_get_absent {V} (object : gmap string V) key :
  object !! key = None → plain_key key → obj_get object key = Absent.
Proof. intros H Hk. unfold obj_get. rewrite H, Hk. reflexivity. Qed.

Lemma obj_get_Own_inv {V} (object : gmap string V) key v :
  obj_get object key = Own v → object !! key = Some v.
Proof.
  unfold obj_get. destruct (object !! key); [congruence|].
  destruct (is_member key); discriminate.
Qed.

Lemma plain_not_proto key : plain_key key → key ≠ "__proto__".
Proof. intros H ->. discriminate H. Qed.

Lemma obj_set_insert key v object :
  key ≠ "__proto__" → obj_set key v object = <[key := v]> object.
Proof.
  intros Hk. unfold obj_set. destruct (object !! key); [reflexivity|].
  destruct (String.eqb_spec key "__proto__"); [congruence|reflexivity].
Qed.

Lemma obj_set_other key v object k :
  k ≠ key → obj_set key v object !! k = object !! k.
Proof.
  intros Hk. unfold obj_set.
  destruct (object !! key); [apply lookup_insert_ne; congruence|].
  destruct (String.eqb key "__proto__"); [reflexivity|].
  apply lookup_insert_ne. congruence.
Qed.

Lemma member_elem name members :
  is_Some (member name members) → name ∈ members.*1.
Proof.
  induction members as [|[n len] members IH]; cbn [member].
  - intros [? H]. discriminate H.
  - destruct (String.eqb_spec n name) as [->|_]; cbn [fmap list_fmap fst].
    + intros _. apply elem_of_cons. left. reflexivity.
    + intros H. apply elem_of_cons. right. apply IH, H.
Qed.

Lemma member_normalized key : is_member key = true → normKey key = key.
Proof.
  intros H.
  assert (Hin : key ∈ object_prototype.*1).
  { apply member_elem. unfold is_member in H.
    destruct (member key object_prototype); [eauto|discriminate]. }
  assert (Hall : Forall (λ k, normKey k = k) object_prototype.*1).
  { repeat constructor. }
  rewrite Forall_forall in Hall. apply Hall, Hin.
Qed.

Lemma unnormalized_plain key : normKey key ≠ key → plain_key key.
Proof.
  intros H. unfold plain_key. destruct (is_member key) eqn:E; [|reflexivity].
  destruct H. apply member_normalized, E.
Qed.

Lemma plain_notifiable key : plain_key key → notifiable key.
Proof.
  unfold plain_key, notifiable, is_member. cbn [array_nonempty].
  destruct (member key object_prototype); [discriminate|reflexivity].
Qed.

End objects.

(** ** Running handlers *)

Section running.

Lemma truthy_prop_Some s : truthy (prop (Some s)) = true ↔ s ≠ "".
Proof.
  simpl. destruct (String.eqb_spec s ""); simpl; split; congruence.
Qed.

Lemma truthy_prop_nonempty s : s ≠ "" → truthy (prop (Some s)) = true.
Proof. apply truthy_prop_Some. Qed.

Lemma truthy_str_nonempty s : s ≠ "" → truthy (JStr s) = true.
Proof. apply truthy_prop_nonempty. Qed.

Lemma read_truthy_own s : s ≠ "" → read_truthy (Own s) = true.
Proof. apply truthy_prop_nonempty. Qed.

Lemma forEach_emit {A} (f : A → action) (xs : list A) st :
  forEach xs (λ x, emit (f x)) st = Returned tt st (f <$> xs).
Proof.
  induction xs as [|x xs IH]; [reflexivity|].
  cbn [forEach]. unfold bind at 1. unfold emit at 1. cbv beta iota.
  rewrite IH. reflexivity.
Qed.

(** The fan-out either runs over the own list, or finds nothing to do, or
    trips over an inherited member with a positive length. *)
Lemma notify_cases key status st :
  notify key status st
  = Returned tt st
      (fan_out key status (subs_of (presenceSubscriptions st) key))
  ∨ (notify key status st
     = Thrown (TypeError "subscribers.forEach is not a function") st []
     ∧ presenceSubscriptions st !! key = None
     ∧ ¬ notifiable key).
Proof.
  unfold notify, bind, gets, fan_out, obj_get, subs_of.
  destruct (presenceSubscriptions st !! key) as [[|sub subs]|] eqn:Hps.
  - left. reflexivity.
  - left. cbn [array_nonempty default from_option id].
    rewrite (forEach_emit
      (λ sub, IoTo sub "presence-update" (presence_payload key status))).
    reflexivity.
  - destruct (is_member key) eqn:Hm.
    + destruct (array_nonempty (@Inherited (list string) key)) eqn:Hlen.
      * right. split; [reflexivity|]. split; [reflexivity|].
        unfold notifiable. congruence.
      * left. reflexivity.
    + left. reflexivity.
Qed.

Lemma notify_effects key status st :
  final_state (notify key status st) = st
  ∧ emitted (notify key status st)
    = fan_out key status (subs_of (presenceSubscriptions st) key).
Proof.
  destruct (notify_cases key status st) as [->|[-> [Hnone _]]];
    [split; reflexivity|].
  unfold subs_of. rewrite Hnone. split; reflexivity.
Qed.

Lemma notify_run key status st :
  is_Some (presenceSubscriptions st !! key) ∨ notifiable key →
  notify key status st
  = Returned tt st
      (fan_out key status (subs_of (presenceSubscriptions st) key)).
Proof.
  intros H. destruct (notify_cases key status st) as [Hrun|(_ & Hnone & Hn)];
    [exact Hrun|].
  destruct H as [[ids H]|H]; [congruence|contradiction].
Qed.

Lemma rate_limited_run s now st :
  rate_limited s now st
  = Returned (fst (isRateLimited (handshake_address s) now (rateLimit st)))
      (set_rateLimit (snd (isRateLimited (handshake_address s) now (rateLimit st))) st)
      [].
Proof.
  unfold rate_limited. destruct (isRateLimited _ _ _). reflexivity.
Qed.

(** What a registration that passes the guards does, thrown or not. *)
Lemma on_register_effects s p now st :
  admitted s now st → p ≠ "" →
  final_state (on_register s (Some p) now st) = registered s (normKey p) now st
  ∧ emitted (on_register s (Some p) now st)
    = fan_out (normKey p) "online"
        (subs_of (presenceSubscriptions st) (normKey p)).
Proof.
  intros Hadm Hp. unfold on_register, bind.
  rewrite rate_limited_run. unfold admitted in Hadm. rewrite Hadm.
  rewrite (truthy_prop_nonempty p Hp). cbn [negb modify].
  change (default "" (Some p)) with p.
  match goal with |- context [notify ?k ?s ?st'] =>
    destruct (notify_effects k s st') as [Hst Hout];
    destruct (notify k s st') end; simpl in *; subst; split; reflexivity.
Qed.

Lemma on_register_run s p now st :
  admitted s now st → p ≠ "" →
  is_Some (presenceSubscriptions st !! normKey p) ∨ notifiable (normKey p) →
  on_register s (Some p) now st
  = Returned tt (registered s (normKey p) now st)
      (fan_out (normKey p) "online"
         (subs_of (presenceSubscriptions st) (normKey p))).
Proof.
  intros Hadm Hp Hok. unfold on_register, bind.
  rewrite rate_limited_run. unfold admitted in Hadm. rewrite Hadm.
  rewrite (truthy_prop_nonempty p Hp). cbn [negb modify].
  change (default "" (Some p)) with p.
  rewrite notify_run by exact Hok. reflexivity.
Qed.

Lemma on_register_limited s p now st :
  ¬ admitted s now st →
  on_register s p now st = Returned tt st [].
Proof.
  intros Hadm. unfold on_register, bind. rewrite rate_limited_run.
  unfold admitted in Hadm. unfold isRateLimited in *.
  destruct (rateLimit st !! handshake_address s) as [rec|]; [|done].
  destruct (TIME_FRAME <? now - startTime rec); [done|].
  destruct (LIMIT <=? count rec); [|done].
  destruct st; reflexivity.
Qed.

Lemma on_register_missing s p now st :
  truthy (prop p) = false →
  ∃ rl, on_register s p now st = Returned tt (set_rateLimit rl st) [].
Proof.
  intros Hp. unfold on_register, bind. rewrite rate_limited_run.
  destruct (fst (isRateLimited _ _ _)); rewrite ?Hp; eexists; reflexivity.
Qed.

(** *** Properties of the final state that every step keeps *)

Lemma bind_final_state {A B} (R : relation state) `{!Transitive R}
    (m : M A) (f : A → M B) st :
  R st (final_state (m st)) →
  (∀ a st1, R st1 (final_state (f a st1))) →
  R st (final_state (bind m f st)).
Proof.
  intros Hm Hf. unfold bind. destruct (m st) as [a st1 out1|e st1 out1];
    [|exact Hm].
  specialize (Hf a st1). simpl in Hm.
  destruct (f a st1); simpl in *; etransitivity; eassumption.
Qed.

Lemma forEach_final_state {A} (R : relation state)
    `{!Reflexive R, !Transitive R} (f : A → M unit) xs : ∀ st,
  (∀ x st1, R st1 (final_state (f x st1))) →
  R st (final_state (forEach xs f st)).
Proof.
  induction xs as [|x xs IH]; intros st Hf; [reflexivity|].
  cbn [forEach]. apply bind_final_state; [apply _|apply Hf|].
  intros _ st1. apply IH, Hf.
Qed.

Lemma bind_final_state_gets {A B} (R : relation state) (g : state → A)
    (f : A → M B) st :
  R st (final_state (f (g st) st)) →
  R st (final_state (bind (gets g) f st)).
Proof. unfold bind, gets. destruct (f (g st) st); auto. Qed.

Lemma bind_returned {A B} (m : M A) (f : A → M B) st :
  returned (bind m f st) = true →
  ∃ a st1 out1, m st = Returned a st1 out1 ∧ returned (f a st1) = true.
Proof.
  unfold bind. destruct (m st) as [a st1 out1|]; [|discriminate].
  intros H. exists a, st1, out1. split; [reflexivity|].
  destruct (f a st1); [reflexivity|discriminate].
Qed.

End running.

(** ** The two loops over the subscription indices *)

Section loops.

Lemma set_presenceSubscriptions_id st :
  set_presenceSubscriptions (λ ps, ps) st = st.
Proof. destruct st; reflexivity. Qed.

Lemma set_presenceSubscriptions_compose f g st :
  set_presenceSubscriptions g (set_presenceSubscriptions f st)
  = set_presenceSubscriptions (λ ps, g (f ps)) st.
Proof. reflexivity. Qed.

Lemma drop_subscriber_cases sid k st :
  ((plain_key k ∨ is_Some (presenceSubscriptions st !! k))
   ∧ drop_subscriber sid k st
     = Returned tt (set_presenceSubscriptions (λ ps, drop_own sid ps k) st) [])
  ∨ (¬ plain_key k ∧ presenceSubscriptions st !! k = None
     ∧ drop_subscriber sid k st
       = Thrown
           (TypeError "presenceSubscriptions[pubKey].filter is not a function")
           st []).
Proof.
  unfold drop_subscriber, bind, gets, obj_get, plain_key.
  destruct (presenceSubscriptions st !! k) as [ids|] eqn:Hps.
  - left. split; [right; eauto|]. cbn [modify].
    unfold set_presenceSubscriptions, drop_own.
    cbn [rateLimit userSockets presenceSubscriptions socketSubscriptions
         socketData rooms storage].
    rewrite Hps. case_decide; reflexivity.
  - destruct (is_member k) eqn:Hm.
    + right. split; [congruence|]. split; reflexivity.
    + left. split; [left; reflexivity|].
      unfold set_presenceSubscriptions, drop_own. rewrite Hps.
      destruct st; reflexivity.
Qed.

Lemma drop_subscriber_run sid k st :
  plain_key k ∨ is_Some (presenceSubscriptions st !! k) →
  drop_subscriber sid k st
  = Returned tt (set_presenceSubscriptions (λ ps, drop_own sid ps k) st) [].
Proof.
  intros Hk.
  destruct (drop_subscriber_cases sid k st) as [[_ H]|(Hn & Hnone & _)];
    [exact H|].
  destruct Hk as [Hk|[ids Hk]]; [contradiction|congruence].
Qed.

Lemma forEach_drop_run sid keys : ∀ st,
  Forall plain_key keys →
  forEach keys (drop_subscriber sid) st
  = Returned tt
      (set_presenceSubscriptions (λ ps, foldl (drop_own sid) ps keys) st) [].
Proof.
  induction keys as [|k keys IH]; intros st Hkeys.
  - cbn [forEach foldl]. rewrite set_presenceSubscriptions_id. reflexivity.
  - apply Forall_cons in Hkeys as [Hk Hkeys]. cbn [forEach foldl].
    unfold bind. rewrite drop_subscriber_run by (left; exact Hk).
    rewrite IH by exact Hkeys. reflexivity.
Qed.

Lemma add_subscriber_cases sid k st :
  ((plain_key (normKey k) ∨ is_Some (presenceSubscriptions st !! normKey k))
   ∧ add_subscriber sid k st
     = Returned tt (set_presenceSubscriptions (λ ps, add_own sid ps k) st) [])
  ∨ (¬ plain_key (normKey k) ∧ presenceSubscriptions st !! normKey k = None
     ∧ add_subscriber sid k st
       = Thrown
           (TypeError "presenceSubscriptions[key].push is not a function")
           st []).
Proof.
  unfold add_subscriber, bind, gets, obj_get, plain_key.
  destruct (presenceSubscriptions st !! normKey k) as [ids|] eqn:Hps.
  - left. split; [right; eauto|]. cbn [array_truthy negb ret]. rewrite Hps.
    cbn [modify]. unfold set_presenceSubscriptions, add_own, subs_of.
    rewrite Hps. reflexivity.
  - destruct (is_member (normKey k)) eqn:Hm.
    + right. split; [congruence|]. split; [reflexivity|].
      cbn [array_truthy negb ret]. rewrite Hps. reflexivity.
    + left. split; [left; reflexivity|]. cbn [array_truthy negb modify].
      cbn [set_presenceSubscriptions presenceSubscriptions].
      rewrite lookup_insert_eq. cbn [modify].
      unfold set_presenceSubscriptions, add_own, subs_of.
      cbn [rateLimit userSockets presenceSubscriptions socketSubscriptions
           socketData rooms storage].
      rewrite Hps, insert_insert_eq. reflexivity.
Qed.

Lemma add_subscriber_run sid k st :
  plain_key (normKey k) →
  add_subscriber sid k st
  = Returned tt (set_presenceSubscriptions (λ ps, add_own sid ps k) st) [].
Proof.
  intros Hk.
  destruct (add_subscriber_cases sid k st) as [[_ H]|(Hn & _)];
    [exact H|contradiction].
Qed.

Lemma forEach_add_run sid K : ∀ st,
  Forall (λ k, plain_key (normKey k)) K →
  forEach K (add_subscriber sid) st
  = Returned tt
      (set_presenceSubscriptions (λ ps, foldl (add_own sid) ps K) st) [].
Proof.
  induction K as [|k K IH]; intros st HK.
  - cbn [forEach foldl]. rewrite set_presenceSubscriptions_id. reflexivity.
  - apply Forall_cons in HK as [Hk HK]. cbn [forEach foldl].
    unfold bind. rewrite add_subscriber_run by exact Hk.
    rewrite IH by exact HK. reflexivity.
Qed.

(** Neither loop emits anything, thrown or not. *)
Lemma drop_subscriber_silent sid k st :
  emitted (drop_subscriber sid k st) = [].
Proof.
  destruct (drop_subscriber_cases sid k st) as [[_ ->]|(_ & _ & ->)];
    reflexivity.
Qed.

Lemma add_subscriber_silent sid k st :
  emitted (add_subscriber sid k st) = [].
Proof.
  destruct (add_subscriber_cases sid k st) as [[_ ->]|(_ & _ & ->)];
    reflexivity.
Qed.

Lemma bind_silent {A B} (m : M A) (f : A → M B) st :
  emitted (m st) = [] →
  (∀ a st1, emitted (f a st1) = []) →
  emitted (bind m f st) = [].
Proof.
  intros Hm Hf. unfold bind. destruct (m st) as [a st1 out1|e st1 out1];
    [|exact Hm].
  specialize (Hf a st1). simpl in Hm. subst out1.
  destruct (f a st1); exact Hf.
Qed.

Lemma forEach_silent {A} (f : A → M unit) xs : ∀ st,
  (∀ x st1, emitted (f x st1) = []) →
  emitted (forEach xs f st) = [].
Proof.
  induction xs as [|x xs IH]; intros st Hf; [reflexivity|].
  cbn [forEach]. apply bind_silent; [apply Hf|].
  intros _ st1. apply IH, Hf.
Qed.

End loops.

(** ** What the subscription steps leave alone *)

Section frames.

#[local] Instance others_kept_refl sid key : Reflexive (others_kept sid key).
Proof. intros st. unfold others_kept. tauto. Qed.

#[local] Instance others_kept_trans sid key : Transitive (others_kept sid key).
Proof.
  intros st1 st2 st3 (H1 & H2 & H3 & H4 & H5 & H6 & H7)
    (G1 & G2 & G3 & G4 & G5 & G6 & G7).
  unfold others_kept. do 4 (split; [congruence|]). split; [|split].
  - intros k Hk. rewrite G5, H5 by exact Hk. reflexivity.
  - intros k. rewrite G6, H6. reflexivity.
  - intros x Hx. rewrite G7, H7 by exact Hx. reflexivity.
Qed.

Lemma filter_others_idemp (sid : string) (ids : list string) :
  filter (λ id, id ≠ sid) (filter (λ id, id ≠ sid) ids)
  = filter (λ id, id ≠ sid) ids.
Proof.
  induction ids as [|id ids IH]; [reflexivity|].
  rewrite filter_cons. case_decide as Hid.
  - rewrite filter_cons, decide_True by exact Hid. f_equal. exact IH.
  - exact IH.
Qed.

Lemma drop_own_others sid ps k key :
  filter (λ id, id ≠ sid) (subs_of (drop_own sid ps k) key)
  = filter (λ id, id ≠ sid) (subs_of ps key).
Proof.
  unfold drop_own, subs_of.
  destruct (ps !! k) as [ids|] eqn:Hk; [|reflexivity].
  destruct (decide (key = k)) as [->|Hne].
  - rewrite Hk. cbn [default from_option id]. case_decide as Hkept.
    + rewrite lookup_delete_eq. simpl. rewrite Hkept. reflexivity.
    + rewrite lookup_insert_eq. simpl. apply filter_others_idemp.
  - case_decide.
    + rewrite lookup_delete_ne, lookup_insert_ne by congruence. reflexivity.
    + rewrite lookup_insert_ne by congruence. reflexivity.
Qed.

Lemma add_own_subs sid ps k key :
  subs_of (add_own sid ps k) key
  = if decide (key = normKey k) then subs_of ps key ++ [sid]
    else subs_of ps key.
Proof.
  unfold add_own. case_decide as Hkey.
  - subst key. unfold subs_of at 1. rewrite lookup_insert_eq. reflexivity.
  - unfold subs_of at 1. rewrite lookup_insert_ne by congruence. reflexivity.
Qed.

Lemma add_own_others sid ps k key :
  filter (λ id, id ≠ sid) (subs_of (add_own sid ps k) key)
  = filter (λ id, id ≠ sid) (subs_of ps key).
Proof.
  rewrite add_own_subs. case_decide; [|reflexivity].
  rewrite filter_app, filter_cons, decide_False by tauto.
  rewrite filter_nil. apply app_nil_r.
Qed.

Lemma others_kept_presence sid key f st :
  (∀ k, filter (λ id, id ≠ sid) (subs_of (f (presenceSubscriptions st)) k)
        = filter (λ id, id ≠ sid) (subs_of (presenceSubscriptions st) k)) →
  others_kept sid key st (set_presenceSubscriptions f st).
Proof.
  intros Hf. unfold others_kept. simpl. repeat split; auto.
Qed.

Lemma drop_subscriber_others sid key k st :
  others_kept sid key st (final_state (drop_subscriber sid k st)).
Proof.
  destruct (drop_subscriber_cases sid k st) as [[_ ->]|(_ & _ & ->)];
    [|reflexivity].
  apply others_kept_presence. intros key'. apply drop_own_others.
Qed.

Lemma add_subscriber_others sid key k st :
  others_kept sid key st (final_state (add_subscriber sid k st)).
Proof.
  destruct (add_subscriber_cases sid k st) as [[_ ->]|(_ & _ & ->)];
    [|reflexivity].
  apply others_kept_presence. intros key'. apply add_own_others.
Qed.

Lemma prune_others sid keys : ∀ ps key,
  filter (λ id, id ≠ sid) (subs_of (foldl (drop_own sid) ps keys) key)
  = filter (λ id, id ≠ sid) (subs_of ps key).
Proof.
  induction keys as [|k keys IH]; intros ps key; cbn [foldl]; [reflexivity|].
  rewrite IH. apply drop_own_others.
Qed.

Lemma add_all_others sid K : ∀ ps key,
  filter (λ id, id ≠ sid) (subs_of (foldl (add_own sid) ps K) key)
  = filter (λ id, id ≠ sid) (subs_of ps key).
Proof.
  induction K as [|k K IH]; intros ps key; cbn [foldl]; [reflexivity|].
  rewrite IH. apply add_own_others.
Qed.

(** The subscription handler, thrown or not, touches only the caller's
    share of the two subscription indices. *)
Lemma on_subscribe_others s K st :
  others_kept (sock_id s) None st
    (final_state (on_subscribe_to_presence s K st)).
Proof.
  destruct K as [K|]; [|reflexivity].
  unfold on_subscribe_to_presence.
  apply bind_final_state; [apply _|reflexivity|]. intros old st1.
  apply bind_final_state; [apply _| |].
  { destruct (nonempty old); [|reflexivity].
    apply forEach_final_state; [apply _..|].
    intros k st2. apply drop_subscriber_others. }
  intros _ st2. apply bind_final_state; [apply _| |].
  { unfold others_kept. simpl. repeat split; auto.
    intros x Hx. apply lookup_insert_ne. congruence. }
  intros _ st3. apply bind_final_state; [apply _| |].
  { apply forEach_final_state; [apply _..|].
    intros k st4. apply add_subscriber_others. }
  intros _ st4. apply bind_final_state; [apply _|reflexivity|].
  intros us st5. reflexivity.
Qed.

(** So does the disconnect handler, which in addition deletes the registry
    entry of the key the socket carries. *)
Lemma on_disconnect_others s st :
  others_kept (sock_id s) (socketData st !! sock_id s) st
    (final_state (on_disconnect s st)).
Proof.
  unfold on_disconnect. apply bind_final_state_gets.
  destruct (socketData st !! sock_id s) as [key|] eqn:Hkey; [|reflexivity].
  destruct (truthy (prop (Some key))); [|reflexivity].
  cbn [default from_option id].
  apply bind_final_state; [apply _| |].
  { destruct (notify_effects key "offline" st) as [-> _]. reflexivity. }
  intros _ st1. apply bind_final_state; [apply _|reflexivity|].
  intros made st2. apply bind_final_state; [apply _| |].
  { destruct (nonempty made); [|reflexivity].
    apply forEach_final_state; [apply _..|].
    intros k st3. apply drop_subscriber_others. }
  intros _ st3. apply bind_final_state; [apply _| |].
  { unfold others_kept. simpl. repeat split; auto.
    intros x Hx. apply lookup_delete_ne. congruence. }
  intros _ st4. unfold others_kept. simpl. repeat split; auto.
  intros k Hk. apply lookup_delete_ne. congruence.
Qed.

End frames.

(** ** Running the subscription and teardown handlers *)

Section unwinding.

Lemma cleanup_run sid st :
  forward_plain st sid →
  (if nonempty (socketSubscriptions st !! sid)
   then forEach (default [] (socketSubscriptions st !! sid))
          (drop_subscriber sid)
   else ret tt) st
  = Returned tt (set_presenceSubscriptions (λ _, pruned sid st) st) [].
Proof.
  intros Hfwd. unfold forward_plain, subs_of in Hfwd. unfold pruned, subs_of.
  destruct (socketSubscriptions st !! sid) as [[|k ks]|];
    cbn [nonempty default from_option id].
  - destruct st; reflexivity.
  - rewrite forEach_drop_run by exact Hfwd. reflexivity.
  - destruct st; reflexivity.
Qed.

Lemma on_subscribe_run s K st :
  forward_plain st (sock_id s) →
  Forall (λ k, plain_key (normKey k)) K →
  on_subscribe_to_presence s (Some K) st
  = Returned tt (subscribed s K st)
      [SocketEmit (sock_id s) "presence-initial-status"
         (JArr (JStr <$>
            List.filter (λ key, read_truthy (lookup st key)) K))].
Proof.
  intros Hfwd HK. unfold on_subscribe_to_presence, bind at 1, gets at 1.
  unfold bind at 1. rewrite (cleanup_run (sock_id s) st Hfwd).
  unfold bind at 1. cbn [modify].
  unfold bind at 1. rewrite forEach_add_run by exact HK.
  unfold bind, gets, emit. reflexivity.
Qed.

Lemma on_disconnect_skip s st :
  truthy (prop (socketData st !! sock_id s)) = false →
  on_disconnect s st = Returned tt st [].
Proof.
  intros Hdata. unfold on_disconnect, bind, gets. rewrite Hdata. reflexivity.
Qed.

Lemma on_disconnect_run s key st :
  socketData st !! sock_id s = Some key → key ≠ "" →
  is_Some (presenceSubscriptions st !! key) ∨ notifiable key →
  forward_plain st (sock_id s) →
  on_disconnect s st
  = Returned tt
      (mkState (rateLimit st) (delete key (userSockets st))
         (pruned (sock_id s) st) (delete (sock_id s) (socketSubscriptions st))
         (socketData st) (rooms st) (storage st))
      (fan_out key "offline" (subs_of (presenceSubscriptions st) key)).
Proof.
  intros Hdata Hkey Hnotify Hfwd. unfold on_disconnect, bind at 1, gets at 1.
  rewrite Hdata, (truthy_prop_nonempty key Hkey). cbn [default from_option id].
  unfold bind at 1. rewrite notify_run by exact Hnotify.
  unfold bind at 1, gets at 1.
  unfold bind at 1. rewrite (cleanup_run (sock_id s) st Hfwd).
  unfold bind, modify. simpl. rewrite !app_nil_r. reflexivity.
Qed.

Lemma members_leave (rs : gmap string (gset string)) (sid room x : string) :
  x ∈ members ((λ ids, ids ∖ {[sid]}) <$> rs) room
  ↔ x ∈ members rs room ∧ x ≠ sid.
Proof.
  unfold members. rewrite lookup_fmap.
  destruct (rs !! room) as [ids|]; simpl; set_solver.
Qed.

Lemma detach_run s key st :
  socketData st !! sock_id s = Some key → key ≠ "" →
  is_Some (presenceSubscriptions st !! key) ∨ notifiable key →
  forward_plain st (sock_id s) →
  detach s st
  = Returned tt (torn_down s key st)
      (fan_out key "offline" (subs_of (presenceSubscriptions st) key)).
Proof.
  intros Hdata Hkey Hnotify Hfwd. unfold detach, bind, modify.
  rewrite (on_disconnect_run s key); [reflexivity|assumption..].
Qed.

Lemma detach_skip s st :
  truthy (prop (socketData st !! sock_id s)) = false →
  detach s st
  = Returned tt (set_rooms (fmap (λ ids, ids ∖ {[sock_id s]})) st) [].
Proof.
  intros Hdata. unfold detach, bind, modify. rewrite on_disconnect_skip.
  - reflexivity.
  - exact Hdata.
Qed.

(** What the transport and the handler leave alone, thrown or not. *)
Lemma detach_others s st :
  let st' := final_state (detach s st) in
  others_kept (sock_id s) (socketData st !! sock_id s)
    (set_rooms (fmap (λ ids, ids ∖ {[sock_id s]})) st) st'.
Proof.
  intros st'. subst st'. unfold detach, bind at 1, modify at 1.
  pose proof (on_disconnect_others s
                (set_rooms (fmap (λ ids, ids ∖ {[sock_id s]})) st)) as H.
  destruct (on_disconnect s _); exact H.
Qed.

Lemma detach_rooms s st :
  rooms (final_state (detach s st))
  = (λ ids, ids ∖ {[sock_id s]}) <$> rooms st.
Proof.
  destruct (detach_others s st) as (_ & _ & _ & Hrooms & _). exact Hrooms.
Qed.

(** The offline fan-out goes out before the clean-up, so it is emitted even
    when the clean-up throws. *)
Lemma detach_emitted s key st :
  socketData st !! sock_id s = Some key → key ≠ "" →
  emitted (detach s st)
  = fan_out key "offline" (subs_of (presenceSubscriptions st) key).
Proof.
  intros Hdata Hkey. unfold detach, bind at 1, modify at 1.
  set (st0 := set_rooms (fmap (λ ids, ids ∖ {[sock_id s]})) st).
  assert (Hout : emitted (on_disconnect s st0)
                 = fan_out key "offline" (subs_of (presenceSubscriptions st) key)).
  { unfold on_disconnect, bind at 1, gets at 1.
    change (socketData st0) with (socketData st).
    rewrite Hdata, (truthy_prop_nonempty key Hkey).
    cbn [default from_option id].
    destruct (notify_effects key "offline" st0) as [Hst Hnote].
    change (presenceSubscriptions st0) with (presenceSubscriptions st) in Hnote.
    unfold bind at 1.
    destruct (notify key "offline" st0) as [[] st1 out1|e st1 out1];
      cbn [emitted final_state] in *; [|exact Hnote].
    subst out1 st1.
    match goal with |- context [?m st0] =>
      match m with bind _ _ =>
        assert (Hrest : emitted (m st0) = []) end end.
    { apply bind_silent; [reflexivity|]. intros made st1.
      apply bind_silent.
      - destruct (nonempty made); [|reflexivity].
        apply forEach_silent, drop_subscriber_silent.
      - intros _ st2. apply bind_silent; [reflexivity|]. reflexivity. }
    match goal with |- context [?m st0] =>
      match m with bind _ _ => destruct (m st0) end end;
      cbn [emitted] in *; subst; rewrite !app_nil_r; reflexivity. }
  destruct (on_disconnect s st0); exact Hout.
Qed.

End unwinding.

(** ** Connection registry *)

Section registry.

(** What a registration stores, thrown or not: an own entry under every
    key but [__proto__]. *)
Lemma registered_lookup s key now st :
  key ≠ "__proto__" →
  userSockets (registered s key now st) !! key = Some (sock_id s).
Proof.
  intros Hkey. unfold registered. simpl.
  rewrite obj_set_insert by exact Hkey. apply lookup_insert_eq.
Qed.

(** C3, on the code. The registry is a plain object, so the names of the
    members of [Object.prototype] are not free keys. After
    [register("__proto__", C)] returns, the registry holds no entry at all
    and [lookup("__proto__")] yields the inherited object, not [C]; a later
    [register("__proto__", C2)] changes nothing. [register("constructor", C)]
    stores the entry and then throws in the fan-out, where the inherited
    function passes for a non-empty subscriber list. *)
Theorem register_prototype_name_not_stored :
  let C := mkSocket "c1" "198.51.100.1" in
  let C2 := mkSocket "c2" "198.51.100.2" in
  let st := after [Connection C; Connection C2] initial in
  let o1 := on_register C (Some "__proto__") 10 st in
  let o2 := on_register C2 (Some "__proto__") 20 (final_state o1) in
  let o3 := on_register C (Some "constructor") 10 st in
  returned o1 = true
  ∧ userSockets (final_state o1) = ∅
  ∧ lookup (final_state o1) "__proto__" = Inherited "__proto__"
  ∧ returned o2 = true
  ∧ userSockets (final_state o2) = ∅
  ∧ lookup (final_state o2) "__proto__" = Inherited "__proto__"
  ∧ o3 = Thrown (TypeError "subscribers.forEach is not a function")
           (final_state o3) []
  ∧ lookup (final_state o3) "constructor" = Own "c1".
Proof. vm_compute. repeat split; reflexivity. Qed.

End registry.

(** ** Teardown *)

Section teardown.

Lemma normKey_nonempty I : normKey I ≠ "" → I ≠ "".
Proof. intros H ->. apply H. reflexivity. Qed.

(** Whatever the registry holds for the key a closing socket carries, the
    entry is deleted when the teardown runs through. *)
Lemma disconnect_deletes_held s key st :
  socketData st !! sock_id s = Some key → key ≠ "" →
  is_Some (presenceSubscriptions st !! key) ∨ notifiable key →
  forward_plain st (sock_id s) →
  userSockets (final_state (detach s st)) !! key = None.
Proof.
  intros Hdata Hkey Hnotify Hfwd.
  rewrite (detach_run s key st Hdata Hkey Hnotify Hfwd).
  simpl. apply lookup_delete_eq.
Qed.

(** C10, as stated, fails, in four ways.
    - The disconnect deletes the entry of the key the socket carries, which
      is the one it registered last: when [C] has registered ["pk_i"] and
      then ["pk_j"], and [C2] has registered ["pk_i"], the disconnect of [C]
      leaves ["pk_i"] mapped to [C2].
    - A socket that carries the empty key is not torn down: after
      [register(" ")] by [C] and then by [C2], the disconnect of [C] leaves
      the mapping of the empty key to [C2].
    - The registry is a plain object. After [C] and then [C2] have
      registered ["toString"], the disconnect of [C] deletes the entry, and
      [lookup] then yields the inherited member, not nothing: a relay
      message addressed to the identity is still emitted, to a room that is
      no string.
    - With ["__proto__"] there is no mapping at all: [lookup] yields the
      inherited object before and after the disconnect. *)
Lemma disconnect_keeps_or_shadows :
  let C := mkSocket "c1" "198.51.100.1" in
  let C2 := mkSocket "c2" "198.51.100.2" in
  let run history := final_state (detach C (after history initial)) in
  lookup (run [Connection C; Connection C2; Register C (Some "pk_i") 10;
               Register C (Some "pk_j") 20; Register C2 (Some "pk_i") 30])
    "pk_i" = Own "c2"
  ∧ lookup (run [Connection C; Connection C2; Register C (Some " ") 10;
                 Register C2 (Some " ") 20]) " " = Own "c2"
  ∧ (let history := [Connection C; Connection C2;
                     Register C (Some "toString") 10;
                     Register C2 (Some "toString") 20] in
     lookup (after history initial) "toString" = Own "c2"
     ∧ userSockets (run history) !! "toString" = None
     ∧ lookup (run history) "toString" = Inherited "toString"
     ∧ emitted (on_direct AcceptConnection C2 "toString" "pk_x" (run history))
       = [IoToInherited "toString" "connection-accepted"
            (JObj [("from", JStr "pk_x")])])
  ∧ (let history := [Connection C; Connection C2;
                     Register C (Some "__proto__") 10;
                     Register C2 (Some "__proto__") 20] in
     lookup (after history initial) "__proto__" = Inherited "__proto__"
     ∧ lookup (run history) "__proto__" = Inherited "__proto__").
Proof. vm_compute. repeat split; reflexivity. Qed.

(** C10, amended. The disconnect of a connection [C] removes the registry
    mapping of the key that [C] carries, the normal form of the identity it
    registered last, without looking at which connection the mapping names.
    Let that key be non-empty and name no member of [Object.prototype], and
    let the keys [C] subscribed to name none either. If the registry maps
    the key to another connection [C2], as it does when [C2] registered the
    identity after [C], the disconnect of [C] returns normally and still
    deletes the mapping: every identity with that normal form resolved to
    [C2] before and is absent afterwards, although [C2] is still in the
    room named by its own id. *)
Theorem disconnect_unregisters_superseder (st : state) (C C2 : socket)
    (key : string) :
  socketData st !! sock_id C = Some key →
  key ≠ "" →
  plain_key key →
  forward_plain st (sock_id C) →
  userSockets st !! key = Some (sock_id C2) →
  sock_id C2 ≠ sock_id C →
  sock_id C2 ∈ members (rooms st) (sock_id C2) →
  let o := detach C st in
  returned o = true
  ∧ (∀ I, normKey I = key → lookup st I = Own (sock_id C2))
  ∧ (∀ I, normKey I = key → lookup (final_state o) I = Absent)
  ∧ sock_id C2 ∈ members (rooms (final_state o)) (sock_id C2).
Proof.
  intros Hdata Hkey Hplain Hfwd Hheld Hne Hlive o. subst o.
  rewrite (detach_run C key st Hdata Hkey);
    [|right; apply plain_notifiable, Hplain|exact Hfwd].
  cbn [returned final_state]. split; [reflexivity|]. split; [|split].
  - intros to <-. apply obj_get_own, Hheld.
  - intros to <-. apply obj_get_absent; [|exact Hplain].
    simpl. apply lookup_delete_eq.
  - simpl. apply members_leave. auto.
Qed.

(** [C] registers ["pk_i"], [C2] registers it after [C], and [C]
    disconnects. *)
Lemma disconnect_unregisters_superseder_witness :
  let C := mkSocket "c1" "198.51.100.1" in
  let C2 := mkSocket "c2" "198.51.100.2" in
  let st := after [Connection C; Connection C2; Register C (Some "pk_i") 10;
                   Register C2 (Some "pk_i") 20] initial in
  let o := detach C st in
  lookup st "pk_i" = Own "c2"
  ∧ lookup (final_state o) "pk_i" = Absent
  ∧ "c2" ∈ members (rooms (final_state o)) "c2".
Proof.
  intros C C2 st o.
  destruct (disconnect_unregisters_superseder st C C2 "pk_i")
    as (_ & Hbefore & Hafter & Hlive).
  - vm_compute. reflexivity.
  - discriminate.
  - reflexivity.
  - constructor.
  - vm_compute. reflexivity.
  - discriminate.
  - apply (bool_decide_unpack _). vm_compute. exact I.
  - split; [apply Hbefore; reflexivity|].
    split; [apply Hafter; reflexivity|exact Hlive].
Defined.

End teardown.

(** ** Validation *)

Section validation.

(** C4, as stated, fails: a registration whose identity is empty only after
    normalization creates the registry entry for the empty key, and a
    subscribe request without a payload throws instead of being ignored. *)
Lemma validation_not_silent :
  let s := mkSocket "c1" "198.51.100.1" in
  normKey " " = ""
  ∧ userSockets initial !! "" = None
  ∧ userSockets (final_state (on_register s (Some " ") 10 initial)) !! ""
    = Some "c1"
  ∧ returned (on_subscribe_to_presence s None initial) = false.
Proof. vm_compute. auto. Qed.

(** C4, amended. A registration that carries no identity or the empty
    string (tested before normalization), or that the rate limiter blocks,
    is a silent no-op: the handler returns normally, emits nothing, and
    leaves the three indices, the socket data, the rooms and the store as
    they were. *)
Theorem register_ignores_missing_identity (st : state) (s : socket)
    (pubKey : option string) (now : Z) :
  pubKey = None ∨ pubKey = Some "" ∨ ¬ admitted s now st →
  let o := on_register s pubKey now st in
  returned o = true
  ∧ emitted o = []
  ∧ same_indices st (final_state o)
  ∧ socketData (final_state o) = socketData st
  ∧ rooms (final_state o) = rooms st
  ∧ storage (final_state o) = storage st.
Proof.
  intros H o. subst o.
  assert (Hcases : truthy (prop pubKey) = false ∨ ¬ admitted s now st).
  { destruct H as [->|[->|H]]; auto. }
  destruct Hcases as [Hp|Hadm].
  - destruct (on_register_missing s pubKey now st Hp) as [rl ->].
    unfold same_indices. simpl. tauto.
  - rewrite (on_register_limited s pubKey now st Hadm).
    unfold same_indices. simpl. tauto.
Qed.

Lemma register_ignores_missing_identity_witness :
  let s := mkSocket "c1" "198.51.100.1" in
  let o := on_register s (Some "") 10 initial in
  returned o = true
  ∧ emitted o = []
  ∧ same_indices initial (final_state o)
  ∧ socketData (final_state o) = socketData initial
  ∧ rooms (final_state o) = rooms initial
  ∧ storage (final_state o) = storage initial.
Proof.
  intros s.
  apply (register_ignores_missing_identity initial s (Some "") 10).
  right. left. reflexivity.
Defined.

End validation.

(** ** Presence subscriptions *)

Section subscriptions.

(** C1, on the code: the forward entry keeps the keys as sent while the
    reverse index is keyed by their normal forms, and the clean-up looks the
    reverse index up under the keys as sent. After [subscribe(S, ["pk a"])]
    the forward set is not [normalize(K)], and a following [subscribe(S, [])]
    leaves [S] behind under ["pka"]. *)
Theorem resubscribe_leaves_residue :
  let S := mkSocket "s1" "198.51.100.1" in
  let st1 := after [Connection S; SubscribeToPresence S (Some ["pk a"])] initial in
  let st2 := after [SubscribeToPresence S (Some [])] st1 in
  socketSubscriptions st1 !! "s1" = Some ["pk a"]
  ∧ presenceSubscriptions st1 !! "pk a" = None
  ∧ presenceSubscriptions st1 !! "pka" = Some ["s1"]
  ∧ socketSubscriptions st2 !! "s1" = Some []
  ∧ presenceSubscriptions st2 !! "pka" = Some ["s1"].
Proof. vm_compute. auto. Qed.

(** C2, on the code: the whole teardown sits under the test of the socket's
    registered key, so a socket that subscribed without registering leaves
    both of its subscription entries behind when it disconnects. *)
Theorem disconnect_unregistered_keeps_subscriptions :
  let S := mkSocket "s1" "198.51.100.1" in
  let st := after [Connection S; SubscribeToPresence S (Some ["pk_a"]);
                   Disconnect S] initial in
  presenceSubscriptions st !! "pk_a" = Some ["s1"]
  ∧ socketSubscriptions st !! "s1" = Some ["pk_a"].
Proof. vm_compute. auto. Qed.

Lemma read_truthy_registered st k :
  ids_nonempty st → plain_key (normKey k) →
  read_truthy (lookup st k)
  = bool_decide (is_Some (userSockets st !! normKey k)).
Proof.
  intros Hids Hk. unfold lookup, obj_get.
  destruct (userSockets st !! normKey k) as [sid|] eqn:E.
  - rewrite (read_truthy_own sid (Hids _ sid E)).
    symmetry. apply bool_decide_eq_true. eauto.
  - rewrite Hk. symmetry. apply bool_decide_eq_false.
    intros [? ?]. discriminate.
Qed.

(** C7, on the code. The reverse index is a plain object: for a requested
    identity that names a member of [Object.prototype] the test of line 224
    finds the inherited member, no list is created, and [push] throws. The
    forward entry and the lists of the identities before it are written by
    then, and the reply is never sent: with ["pk_a"] registered,
    [subscribe(B, ["pk_a", "toString"])] brings [B] nothing, where the
    online subset of the request is [["pk_a"]]. *)
Theorem subscribe_prototype_name_gets_no_reply :
  let A := mkSocket "sA" "198.51.100.1" in
  let B := mkSocket "sB" "198.51.100.2" in
  let st := after [Connection A; Connection B; Register A (Some "pk_a") 10]
              initial in
  let o := on_subscribe_to_presence B (Some ["pk_a"; "toString"]) st in
  online_subset st ["pk_a"; "toString"] = ["pk_a"]
  ∧ o = Thrown
          (TypeError "presenceSubscriptions[key].push is not a function")
          (final_state o) []
  ∧ inbox (rooms (final_state o)) "sB" (emitted o) = []
  ∧ socketSubscriptions (final_state o) !! "sB" = Some ["pk_a"; "toString"]
  ∧ presenceSubscriptions (final_state o) !! "pk_a" = Some ["sB"]
  ∧ presenceSubscriptions (final_state o) !! "toString" = None.
Proof. vm_compute. repeat split; reflexivity. Qed.

End subscriptions.

(** ** Relay *)

Section relay.

Lemma members_join (rs : gmap string (gset string)) (sid room r x : string) :
  x ∈ members (<[room := {[sid]} ∪ members rs room]> rs) r
  ↔ x ∈ members rs r ∨ (r = room ∧ x = sid).
Proof.
  unfold members. destruct (decide (room = r)) as [->|Hne].
  - rewrite lookup_insert_eq. simpl. set_solver.
  - rewrite lookup_insert_ne by done. set_solver.
Qed.

Lemma on_join_members s room st r x :
  x ∈ members (rooms (final_state (on_join s room st))) r
  ↔ x ∈ members (rooms st) r ∨ (r = room ∧ x = sock_id s).
Proof. unfold on_join, modify. simpl. apply members_join. Qed.




Lemma on_request_connection_limited s to from now st :
  ¬ admitted s now st →
  on_request_connection s to from now st = Returned tt st [].
Proof.
  intros Hadm. unfold on_request_connection, bind. rewrite rate_limited_run.
  unfold admitted in Hadm. unfold isRateLimited in *.
  destruct (rateLimit st !! handshake_address s) as [rec|]; [|done].
  destruct (TIME_FRAME <? now - startTime rec); [done|].
  destruct (LIMIT <=? count rec); [|done].
  destruct st; reflexivity.
Qed.

(** A request that is let through counts against the address and does
    nothing else to the state: it emits the relay for a target that reads
    as registered, and otherwise at most logs the failure of the push. *)
Lemma on_request_connection_run s to from now st :
  admitted s now st →
  on_request_connection s to from now st
  = Returned tt
      (set_rateLimit
         (snd (isRateLimited (handshake_address s) now (rateLimit st))) st)
      (if read_truthy (lookup st to)
       then relay_to (lookup st to)
              ("incoming-request", JObj [("from", JStr (normKey from))])
       else push_log st to).
Proof.
  intros Hadm. unfold on_request_connection, bind at 1.
  rewrite rate_limited_run. unfold admitted in Hadm. rewrite Hadm.
  unfold bind at 1, gets at 1. unfold lookup, push_log, push_key.
  cbn [userSockets set_rateLimit].
  destruct (read_truthy (obj_get (userSockets st) (normKey to))) eqn:Htgt.
  - destruct (obj_get (userSockets st) (normKey to)) as [tgt| |];
      [|reflexivity|discriminate].
    cbn [read_truthy] in Htgt. cbn [relay_to io_to]. rewrite Htgt.
    reflexivity.
  - unfold bind, gets, emit, ret.
    change (storage (set_rateLimit ?r st)) with (storage st).
    destruct (storage st !! ("sub_" +:+ normKey to)) as [sub|]; [|reflexivity].
    destruct (truthy sub); reflexivity.
Qed.

(** C8, on the code. The file never declares [webpush]. With ["pk_b"] not
    registered and a truthy item stored under ["sub_pk_b"] (here one that
    [POST /claim-id] wrote), [request-connection({to: "pk_b", from: "pk_a"})]
    attempts no push: the reference to [webpush] throws inside the [try],
    the [catch] logs an error that carries no status code, and the stored
    item is never removed. With [to] the name of a member of
    [Object.prototype], such as ["valueOf"], the registry read is truthy
    although nobody registered: the handler takes the branch for a
    registered target, emits to a room that is no string, and never looks
    at the store. *)
Theorem request_connection_never_pushes :
  let A := mkSocket "sA" "198.51.100.1" in
  let req := mkClaim (Some "sub_pk_b") (Some "invite-code")
               (Some "permanent") (Some "pk_b") (Some "public") in
  let store := apply_ops (snd (claim_id req [] ∅)) ∅ in
  let st := set_storage (λ _, store) (after [Connection A] initial) in
  let o := on_request_connection A "pk_b" "pk_a" 10 st in
  let o' := on_request_connection A "valueOf" "pk_a" 20 st in
  status (fst (claim_id req [] ∅)) = 200
  ∧ lookup st "pk_b" = Absent
  ∧ truthy (default JUndefined (storage st !! push_key "pk_b")) = true
  ∧ returned o = true
  ∧ emitted o = [ConsoleError "pk_b" None]
  ∧ expired None = false
  ∧ storage (final_state o) = storage st
  ∧ lookup st "valueOf" = Inherited "valueOf"
  ∧ emitted o' = [IoToInherited "valueOf" "incoming-request"
                    (JObj [("from", JStr "pk_a")])].
Proof. vm_compute. repeat split; reflexivity. Qed.

End relay.

(** ** Presence pushes *)

Section presence.

Lemma inbox_fan_out_count rs (x key status : string) (subs : list string) :
  inbox rs x (fan_out key status subs)
  = replicate (length (filter (λ sub, x ∈ members rs sub) subs))
      ("presence-update", presence_payload key status).
Proof.
  unfold inbox, fan_out. induction subs as [|sub subs IH]; [reflexivity|].
  rewrite fmap_cons. cbn [omap list_omap receives]. rewrite filter_cons.
  destruct (decide (x ∈ members rs sub)) as [Hin|Hout].
  - rewrite bool_decide_true by exact Hin.
    cbn [length replicate]. f_equal. exact IH.
  - rewrite bool_decide_false by exact Hout. exact IH.
Qed.

Lemma filter_agree {A} (P Q : A → Prop) `{∀ x, Decision (P x)}
    `{∀ x, Decision (Q x)} (l : list A) :
  (∀ x, x ∈ l → (P x ↔ Q x)) → filter P l = filter Q l.
Proof.
  induction l as [|a l IH]; intros Hl; [reflexivity|].
  rewrite !filter_cons.
  assert (Ha : P a ↔ Q a) by (apply Hl; left).
  assert (Hrest : filter P l = filter Q l).
  { apply IH. intros x Hx. apply Hl. right. exact Hx. }
  destruct (decide (P a)), (decide (Q a)); try tauto; congruence.
Qed.

(** A socket that is in its own room and in the room of no other listed
    subscriber receives one push per entry of its own. *)
Lemma inbox_fan_out rs (B key status : string) (subs : list string) :
  B ∈ members rs B →
  (∀ sub, sub ∈ subs → sub ≠ B → B ∉ members rs sub) →
  inbox rs B (fan_out key status subs)
  = replicate (occurrences B subs)
      ("presence-update", presence_payload key status).
Proof.
  intros Hown Hothers. rewrite inbox_fan_out_count. unfold occurrences.
  f_equal. f_equal. apply filter_agree. intros sub Hin. split.
  - intros HB. destruct (decide (sub = B)) as [Heq|Hne]; [exact Heq|].
    destruct (Hothers sub Hin Hne HB).
  - intros ->. exact Hown.
Qed.

(** C6, as stated, fails, in seven ways.
    - The field is [pubKey], not [identity]: in end-to-end scenario 2 the
      one event [B] receives carries [{pubKey: "pk_a", status: "offline"}].
    - The disconnect announces the key the socket carries, which is the one
      it registered last: when [A] has registered ["pk_a"] and then
      ["pk_z"], the registry still resolves ["pk_a"] to [A], and the
      disconnect of [A] brings the subscriber of ["pk_a"] nothing.
    - A subscriber is pushed once per entry: after
      [subscribe(B, ["pk_a", "pk_a"])] the disconnect brings [B] two events.
    - A push goes to the room named by the subscriber's id: when [B] has
      joined the room named by the id of another subscriber [C], the
      disconnect brings [B] two events.
    - A closing socket has left its rooms: when [A] itself subscribed to
      ["pk_a"], its own disconnect brings it nothing.
    - The disconnect handler does nothing for a socket that carries the
      empty key: after [register(" ")] by [A], its disconnect brings the
      subscriber of the empty identity nothing.
    - A [register] that the rate limiter blocks pushes nothing: the
      twenty-first call from one address within a minute brings the
      subscriber nothing. *)
Lemma presence_update_differs :
  let A := mkSocket "sA" "198.51.100.1" in
  let B := mkSocket "sB" "198.51.100.2" in
  let C := mkSocket "sC" "198.51.100.3" in
  let offline := ("presence-update",
                  JObj [("pubKey", JStr "pk_a"); ("status", JStr "offline")]) in
  let st2 := after [Connection A; Connection B; Register A (Some "pk_a") 10;
                    Register A (Some "pk_z") 20;
                    SubscribeToPresence B (Some ["pk_a"])] initial in
  (let o := detach A (after [Connection A; Connection B;
                             Register A (Some "pk_a") 10;
                             SubscribeToPresence B (Some ["pk_a"])] initial) in
   inbox (rooms (final_state o)) "sB" (emitted o) = [offline]
   ∧ inbox (rooms (final_state o)) "sB" (emitted o)
     ≠ [("presence-update",
         JObj [("identity", JStr "pk_a"); ("status", JStr "offline")])])
  ∧ (let o := detach A st2 in
     lookup st2 "pk_a" = Own "sA"
     ∧ inbox (rooms (final_state o)) "sB" (emitted o) = [])
  ∧ (let o := detach A (after [Connection A; Connection B;
                               Register A (Some "pk_a") 10;
                               SubscribeToPresence B (Some ["pk_a"; "pk_a"])]
                          initial) in
     inbox (rooms (final_state o)) "sB" (emitted o) = [offline; offline])
  ∧ (let o := detach A (after [Connection A; Connection B; Connection C;
                               Register A (Some "pk_a") 10;
                               SubscribeToPresence C (Some ["pk_a"]);
                               SubscribeToPresence B (Some ["pk_a"]);
                               Join B "sC"] initial) in
     inbox (rooms (final_state o)) "sB" (emitted o) = [offline; offline])
  ∧ (let o := detach A (after [Connection A; Register A (Some "pk_a") 10;
                               SubscribeToPresence A (Some ["pk_a"])]
                          initial) in
     emitted o = [IoTo "sA" "presence-update" (snd offline)]
     ∧ inbox (rooms (final_state o)) "sA" (emitted o) = [])
  ∧ (let o := detach A (after [Connection A; Connection B;
                               Register A (Some " ") 10;
                               SubscribeToPresence B (Some [""])] initial) in
     inbox (rooms (final_state o)) "sB" (emitted o) = [])
  ∧ (let st := after (Connection A :: Connection B
                      :: SubscribeToPresence B (Some ["pk_a"])
                      :: replicate 20 (Register A None 10)) initial in
     let o := on_register A (Some "pk_a") 20 st in
     inbox (rooms (final_state o)) "sB" (emitted o) = []).
Proof.
  vm_compute. repeat split; try reflexivity. discriminate.
Qed.

(** C6, amended. Presence-change pushes carry the payload shape
    [{pubKey, status}]. Let connection [B] be in the room named by its own
    id, be listed exactly once among the subscribers of identity [key], and
    be in the room named by no other listed subscriber. When a connection
    [A] other than [B] that carries the non-empty [key], the key it
    registered last, disconnects, [B] receives exactly one
    [presence-update] event, whose payload is
    [{pubKey: key, status: "offline"}]. When [A], which may be [B], sends a
    [register] with a non-empty argument whose normal form is [key] and the
    rate limiter lets it through, what [B] receives is a [presence-update]
    whose payload is [{pubKey: key, status: "online"}]. *)
Theorem presence_push_payload (st : state) (A : socket) (B key : string) :
  B ∈ members (rooms st) B →
  occurrences B (subs_of (presenceSubscriptions st) key) = 1%nat →
  (∀ sub, sub ∈ subs_of (presenceSubscriptions st) key → sub ≠ B →
          B ∉ members (rooms st) sub) →
  (socketData st !! sock_id A = Some key → key ≠ "" → B ≠ sock_id A →
     let o := detach A st in
     inbox (rooms (final_state o)) B (emitted o)
     = [("presence-update",
         JObj [("pubKey", JStr key); ("status", JStr "offline")])])
  ∧ (∀ p now, p ≠ "" → normKey p = key → admitted A now st →
     let o := on_register A (Some p) now st in
     inbox (rooms (final_state o)) B (emitted o)
     = [("presence-update",
         JObj [("pubKey", JStr key); ("status", JStr "online")])]).
Proof.
  intros Hown Honce Hothers. split.
  - intros Hdata Hkey HB o. subst o.
    rewrite (detach_emitted A key st Hdata Hkey), detach_rooms.
    rewrite inbox_fan_out.
    + rewrite Honce. reflexivity.
    + apply members_leave. auto.
    + intros sub Hin Hne Hmem. apply members_leave in Hmem as [Hmem _].
      exact (Hothers sub Hin Hne Hmem).
  - intros p now Hp Hnorm Hadm o. subst o.
    destruct (on_register_effects A p now st Hadm Hp) as [-> ->].
    rewrite Hnorm.
    change (rooms (registered A key now st)) with (rooms st).
    rewrite inbox_fan_out by assumption.
    rewrite Honce. reflexivity.
Qed.

(** End-to-end scenario 2: A registers ["pk_a"], B subscribes to it, A
    disconnects, and B receives the offline push once. *)
Lemma presence_push_payload_witness :
  let A := mkSocket "sA" "198.51.100.1" in
  let B := mkSocket "sB" "198.51.100.2" in
  let st := after [Connection A; Connection B; Register A (Some "pk_a") 10;
                   SubscribeToPresence B (Some ["pk_a"])] initial in
  let o := detach A st in
  inbox (rooms (final_state o)) "sB" (emitted o)
  = [("presence-update",
      JObj [("pubKey", JStr "pk_a"); ("status", JStr "offline")])].
Proof.
  intros A B st.
  destruct (presence_push_payload st A "sB" "pk_a") as [Hoff _].
  - apply (bool_decide_unpack _). vm_compute. exact I.
  - vm_compute. reflexivity.
  - intros sub Hin Hne. vm_compute in Hin.
    apply list_elem_of_singleton in Hin. contradiction.
  - apply Hoff.
    + vm_compute. reflexivity.
    + discriminate.
    + discriminate.
Defined.

End presence.

(** ** The two subscription indices in step *)

Section transposition.

Lemma drop_own_mentions sid ps k x key :
  mentions (drop_own sid ps k) x key
  ↔ mentions ps x key ∧ ¬ (x = sid ∧ key = k).
Proof.
  unfold drop_own, mentions.
  destruct (ps !! k) as [ids|] eqn:Hk.
  - destruct (decide (key = k)) as [->|Hne].
    + rewrite Hk. case_decide as Hkept.
      * rewrite lookup_delete_eq. split.
        { intros (ids' & [=] & _). }
        intros [(ids' & [= <-] & Hin) Hnot].
        assert (Hx : x ∈ filter (λ id, id ≠ sid) ids).
        { apply list_elem_of_filter. split; [|exact Hin].
          intros ->. apply Hnot. auto. }
        rewrite Hkept in Hx. inversion Hx.
      * rewrite lookup_insert_eq. split.
        { intros (ids' & [= <-] & Hin). apply list_elem_of_filter in Hin as [Hx Hin].
          split; [eauto|]. intros [-> _]. apply Hx. reflexivity. }
        intros [(ids' & [= <-] & Hin) Hnot]. eexists. split; [reflexivity|].
        apply list_elem_of_filter. split; [|exact Hin].
        intros ->. apply Hnot. auto.
    + assert (Hsame : ∀ kept : list string,
                (if decide (kept = []) then delete k (<[k:=kept]> ps)
                 else <[k:=kept]> ps) !! key = ps !! key).
      { intros kept. case_decide.
        - rewrite lookup_delete_ne, lookup_insert_ne by congruence. reflexivity.
        - rewrite lookup_insert_ne by congruence. reflexivity. }
      rewrite Hsame. split; [|tauto]. intros H. split; [exact H|]. tauto.
  - split; [|tauto]. intros (ids & Hids & Hin). split; [eauto|].
    intros [-> ->]. congruence.
Qed.

Lemma prune_mentions sid keys : ∀ ps x key,
  mentions (foldl (drop_own sid) ps keys) x key
  ↔ mentions ps x key ∧ ¬ (x = sid ∧ key ∈ keys).
Proof.
  induction keys as [|k keys IH]; intros ps x key; cbn [foldl].
  - rewrite elem_of_nil. tauto.
  - rewrite IH, drop_own_mentions, elem_of_cons. tauto.
Qed.

Lemma add_own_mentions sid ps k x key :
  mentions (add_own sid ps k) x key
  ↔ mentions ps x key ∨ (x = sid ∧ key = normKey k).
Proof.
  unfold add_own, mentions, subs_of.
  destruct (decide (key = normKey k)) as [->|Hne].
  - rewrite lookup_insert_eq. split.
    + intros (ids' & [= <-] & Hin). apply elem_of_app in Hin as [Hin|Hin].
      * left. destruct (ps !! normKey k) as [ids|]; simpl in Hin;
          [eauto|inversion Hin].
      * apply list_elem_of_singleton in Hin. auto.
    + intros [(ids' & Hids & Hin)|[-> _]]; eexists;
        (split; [reflexivity|]); apply elem_of_app.
      * left. rewrite Hids. exact Hin.
      * right. apply list_elem_of_singleton. reflexivity.
  - rewrite lookup_insert_ne by congruence.
    split; [auto|]. intros [H|[_ H]]; [exact H|congruence].
Qed.

Lemma add_all_mentions sid K : ∀ ps x key,
  mentions (foldl (add_own sid) ps K) x key
  ↔ mentions ps x key ∨ (x = sid ∧ key ∈ normKey <$> K).
Proof.
  induction K as [|k K IH]; intros ps x key; cbn [foldl].
  - rewrite fmap_nil, elem_of_nil. tauto.
  - rewrite IH, add_own_mentions, fmap_cons, elem_of_cons. tauto.
Qed.

Lemma normalized_fmap K : Forall normalized K → normKey <$> K = K.
Proof.
  induction 1 as [|k K Hk _ IH]; [reflexivity|].
  rewrite fmap_cons, IH, Hk. reflexivity.
Qed.

Lemma transposed_ext st st' x :
  presenceSubscriptions st' = presenceSubscriptions st →
  socketSubscriptions st' = socketSubscriptions st →
  transposed st x → transposed st' x.
Proof. unfold transposed. intros -> ->. auto. Qed.

Lemma subscribed_mentions s K st x key :
  mentions (presenceSubscriptions (subscribed s K st)) x key
  ↔ (mentions (presenceSubscriptions st) x key
     ∧ ¬ (x = sock_id s
          ∧ key ∈ subs_of (socketSubscriptions st) (sock_id s)))
    ∨ (x = sock_id s ∧ key ∈ normKey <$> K).
Proof.
  cbn [subscribed presenceSubscriptions].
  rewrite add_all_mentions. unfold pruned. rewrite prune_mentions. tauto.
Qed.

(** When the forward entry of [S] was in step with the reverse index, the
    state after [subscribe(S, K)] lists [S] in the reverse index under
    exactly the normal forms of [K]. *)
Lemma subscribed_reverse_index s K st key :
  transposed st (sock_id s) →
  mentions (presenceSubscriptions (subscribed s K st)) (sock_id s) key
  ↔ key ∈ normKey <$> K.
Proof.
  intros Htr. rewrite subscribed_mentions. specialize (Htr key). tauto.
Qed.

(** With normalized keys the forward entry is then [K] and the two indices
    are in step again: a later request starts from the same footing, so
    nothing of [K] that it drops stays behind. *)
Lemma subscribed_transposed s K st :
  Forall normalized K →
  transposed st (sock_id s) →
  transposed (subscribed s K st) (sock_id s).
Proof.
  intros HK Htr key. rewrite (subscribed_reverse_index s K st key Htr).
  rewrite (normalized_fmap K HK). unfold subs_of. simpl.
  rewrite lookup_insert_eq. reflexivity.
Qed.

Lemma subscribed_transposed_others s K st x :
  x ≠ sock_id s →
  transposed st x →
  transposed (subscribed s K st) x.
Proof.
  intros Hne Htr key. rewrite subscribed_mentions. unfold subs_of at 2.
  simpl. rewrite lookup_insert_ne by congruence. specialize (Htr key).
  unfold subs_of in Htr. tauto.
Qed.

(** The state after the teardown of a socket whose forward entry was in
    step with the reverse index has all three indices unwound. *)
Lemma torn_down_unwinds s key st :
  transposed st (sock_id s) →
  (∀ k, ¬ mentions (presenceSubscriptions (torn_down s key st)) (sock_id s) k)
  ∧ socketSubscriptions (torn_down s key st) !! sock_id s = None
  ∧ userSockets (torn_down s key st) !! key = None.
Proof.
  intros Htr. simpl. split; [|split].
  - intros k. unfold pruned. rewrite prune_mentions.
    specialize (Htr k). tauto.
  - apply lookup_delete_eq.
  - apply lookup_delete_eq.
Qed.

Lemma torn_down_transposed s key st x :
  transposed st (sock_id s) →
  transposed st x →
  transposed (torn_down s key st) x.
Proof.
  intros Hs Hx k. unfold subs_of. simpl.
  unfold pruned. rewrite prune_mentions.
  destruct (decide (x = sock_id s)) as [->|Hne].
  - rewrite lookup_delete_eq. simpl. rewrite elem_of_nil.
    specialize (Hs k). tauto.
  - rewrite lookup_delete_ne by congruence. specialize (Hx k).
    unfold subs_of in Hx. tauto.
Qed.

(** With the indices in step for a socket and every subscriber list under
    a plain key, the keys of the socket's forward entry are plain. *)
Lemma transposed_forward_plain st sid :
  transposed st sid → presence_plain st → forward_plain st sid.
Proof.
  intros Htr Hps. unfold forward_plain. apply Forall_forall. intros k Hk.
  apply Htr in Hk as (ids & Hids & _). exact (Hps k ids Hids).
Qed.

(** When the forward entry of [S] was in step with the reverse index,
    [subscribe(S, K)] with plain keys leaves [S] in the reverse index under
    exactly the normal forms of [K]. *)
Lemma subscribe_reverse_index s K st key :
  transposed st (sock_id s) →
  forward_plain st (sock_id s) →
  Forall (λ k, plain_key (normKey k)) K →
  mentions (presenceSubscriptions
              (final_state (on_subscribe_to_presence s (Some K) st)))
    (sock_id s) key
  ↔ key ∈ normKey <$> K.
Proof.
  intros Htr Hfwd HK. rewrite on_subscribe_run by assumption.
  apply subscribed_reverse_index, Htr.
Qed.

Lemma subscribe_transposed s K st :
  Forall normalized K →
  Forall plain_key K →
  transposed st (sock_id s) →
  forward_plain st (sock_id s) →
  let st' := final_state (on_subscribe_to_presence s (Some K) st) in
  socketSubscriptions st' !! sock_id s = Some K
  ∧ transposed st' (sock_id s).
Proof.
  intros Hnorm Hplain Htr Hfwd st'. subst st'.
  rewrite on_subscribe_run; [|exact Hfwd|].
  - split; [apply lookup_insert_eq|].
    apply subscribed_transposed; assumption.
  - apply Forall_forall. intros k Hk.
    rewrite Forall_forall in Hnorm. rewrite (Hnorm k Hk).
    rewrite Forall_forall in Hplain. exact (Hplain k Hk).
Qed.

(** The teardown of a socket that carries a key and whose forward entry is
    in step with the reverse index unwinds all three indices. *)
Lemma detach_unwinds s key st :
  transposed st (sock_id s) →
  socketData st !! sock_id s = Some key → key ≠ "" →
  notifiable key →
  presence_plain st →
  let st' := final_state (detach s st) in
  (∀ k, ¬ mentions (presenceSubscriptions st') (sock_id s) k)
  ∧ socketSubscriptions st' !! sock_id s = None
  ∧ userSockets st' !! key = None.
Proof.
  intros Htr Hdata Hkey Hnotify Hps st'. subst st'.
  rewrite (detach_run s key st Hdata Hkey);
    [|right; exact Hnotify|apply transposed_forward_plain; assumption].
  apply torn_down_unwinds, Htr.
Qed.

Lemma on_register_keeps_subscriptions s p now st :
  presenceSubscriptions (final_state (on_register s p now st))
  = presenceSubscriptions st
  ∧ socketSubscriptions (final_state (on_register s p now st))
    = socketSubscriptions st.
Proof.
  destruct (decide (admitted s now st)) as [Hadm|Hadm].
  - destruct (truthy (prop p)) eqn:Hp.
    + destruct p as [p|]; [|discriminate].
      apply truthy_prop_Some in Hp.
      destruct (on_register_effects s p now st Hadm Hp) as [-> _].
      split; reflexivity.
    + destruct (on_register_missing s p now st Hp) as [rl ->].
      split; reflexivity.
  - rewrite (on_register_limited s p now st Hadm). split; reflexivity.
Qed.

Lemma on_request_connection_keeps_subscriptions s to from now st :
  userSockets (final_state (on_request_connection s to from now st))
  = userSockets st
  ∧ presenceSubscriptions (final_state (on_request_connection s to from now st))
    = presenceSubscriptions st
  ∧ socketSubscriptions (final_state (on_request_connection s to from now st))
    = socketSubscriptions st
  ∧ socketData (final_state (on_request_connection s to from now st))
    = socketData st.
Proof.
  destruct (decide (admitted s now st)) as [Hadm|Hadm].
  - rewrite (on_request_connection_run s to from now st Hadm).
    repeat split; reflexivity.
  - rewrite (on_request_connection_limited s to from now st Hadm).
    repeat split; reflexivity.
Qed.

(** *** Plain keys all along *)

Lemma plain_raw k : plain_key (normKey k) → plain_key k.
Proof.
  unfold plain_key. intros Hk. destruct (is_member k) eqn:Hm; [|reflexivity].
  rewrite (member_normalized k Hm) in Hk. congruence.
Qed.

Lemma drop_own_plain sid ps k :
  map_Forall (λ key _, plain_key key) ps →
  map_Forall (λ key _, plain_key key) (drop_own sid ps k).
Proof.
  intros Hps. unfold drop_own. destruct (ps !! k) as [ids|] eqn:Hk;
    [|exact Hps].
  assert (Hins : ∀ kept : list string,
            map_Forall (λ key _, plain_key key) (<[k := kept]> ps)).
  { intros kept. apply map_Forall_insert_2; [exact (Hps k ids Hk)|exact Hps]. }
  case_decide; [apply map_Forall_delete|]; apply Hins.
Qed.

Lemma prune_plain sid keys : ∀ ps,
  map_Forall (λ key _, plain_key key) ps →
  map_Forall (λ key _, plain_key key) (foldl (drop_own sid) ps keys).
Proof.
  induction keys as [|k keys IH]; intros ps Hps; [exact Hps|].
  cbn [foldl]. apply IH, drop_own_plain, Hps.
Qed.

Lemma add_all_plain sid K : ∀ ps,
  Forall (λ k, plain_key (normKey k)) K →
  map_Forall (λ key _, plain_key key) ps →
  map_Forall (λ key _, plain_key key) (foldl (add_own sid) ps K).
Proof.
  induction K as [|k K IH]; intros ps HK Hps; [exact Hps|].
  apply Forall_cons in HK as [Hk HK]. cbn [foldl]. apply IH; [exact HK|].
  unfold add_own. apply map_Forall_insert_2; [exact Hk|exact Hps].
Qed.

(** A subscription loop that returns has only met plain keys. *)
Lemma forEach_add_returned sid K : ∀ st,
  presence_plain st →
  returned (forEach K (add_subscriber sid) st) = true →
  Forall (λ k, plain_key (normKey k)) K.
Proof.
  induction K as [|k K IH]; intros st Hps Hret; [constructor|].
  cbn [forEach] in Hret. apply bind_returned in Hret
    as ([] & st1 & out1 & Hrun & Hret).
  destruct (add_subscriber_cases sid k st) as [[Hk Hrun']|(_ & _ & Hrun')];
    [|congruence].
  assert (Hplain : plain_key (normKey k)).
  { destruct Hk as [Hk|[ids Hk]]; [exact Hk|exact (Hps _ ids Hk)]. }
  constructor; [exact Hplain|].
  apply (IH st1); [|exact Hret].
  rewrite Hrun' in Hrun. injection Hrun as <- _.
  unfold presence_plain. simpl. unfold add_own.
  apply map_Forall_insert_2; [exact Hplain|exact Hps].
Qed.

Lemma notify_returned key status st :
  returned (notify key status st) = true →
  presence_plain st →
  notifiable key.
Proof.
  intros Hret Hps.
  destruct (notify_cases key status st) as [_|(Hrun & _)];
    [|rewrite Hrun in Hret; discriminate].
  destruct (presenceSubscriptions st !! key) as [ids|] eqn:Hkey.
  - apply plain_notifiable. exact (Hps _ ids Hkey).
  - unfold notify, bind, gets, obj_get in Hret. rewrite Hkey in Hret.
    unfold notifiable.
    destruct (is_member key) eqn:Hm.
    + destruct (array_nonempty (@Inherited (list string) key));
        [discriminate|reflexivity].
    + apply plain_notifiable. exact Hm.
Qed.

Lemma plain_state_initial : plain_state initial.
Proof.
  split; [|split].
  - apply map_Forall_empty.
  - intros sid. constructor.
  - apply map_Forall_empty.
Qed.

Lemma subscribed_plain s K st :
  plain_state st →
  Forall (λ k, plain_key (normKey k)) K →
  plain_state (subscribed s K st).
Proof.
  intros (Hps & Hfwd & Hdata) HK. split; [|split].
  - unfold presence_plain. simpl. apply add_all_plain; [exact HK|].
    apply prune_plain, Hps.
  - intros x. unfold forward_plain, subs_of. simpl.
    destruct (decide (x = sock_id s)) as [->|Hne].
    + rewrite lookup_insert_eq. simpl.
      eapply Forall_impl; [exact HK|]. intros k. apply plain_raw.
    + rewrite lookup_insert_ne by congruence. apply Hfwd.
  - exact Hdata.
Qed.

Lemma torn_down_plain s key st :
  plain_state st → plain_state (torn_down s key st).
Proof.
  intros (Hps & Hfwd & Hdata). split; [|split].
  - unfold presence_plain. simpl. apply prune_plain, Hps.
  - intros x. unfold forward_plain, subs_of. simpl.
    destruct (decide (x = sock_id s)) as [->|Hne].
    + rewrite lookup_delete_eq. constructor.
    + rewrite lookup_delete_ne by congruence. apply Hfwd.
  - exact Hdata.
Qed.

Lemma plain_state_ext st st' :
  presenceSubscriptions st' = presenceSubscriptions st →
  socketSubscriptions st' = socketSubscriptions st →
  socketData st' = socketData st →
  plain_state st → plain_state st'.
Proof.
  unfold plain_state, presence_plain, forward_plain, data_notifiable.
  intros -> -> ->. auto.
Qed.

(** The teardown of a socket in a plain state runs through. *)
Lemma detach_plain_run s st :
  plain_state st →
  (∃ key, socketData st !! sock_id s = Some key ∧ key ≠ ""
          ∧ detach s st
            = Returned tt (torn_down s key st)
                (fan_out key "offline" (subs_of (presenceSubscriptions st) key)))
  ∨ (truthy (prop (socketData st !! sock_id s)) = false
     ∧ detach s st
       = Returned tt (set_rooms (fmap (λ ids, ids ∖ {[sock_id s]})) st) []).
Proof.
  intros (Hps & Hfwd & Hdata).
  destruct (truthy (prop (socketData st !! sock_id s))) eqn:Htruthy.
  - left. destruct (socketData st !! sock_id s) as [key|] eqn:Hkey;
      [|discriminate].
    apply truthy_prop_Some in Htruthy. exists key.
    split; [reflexivity|]. split; [exact Htruthy|].
    apply detach_run; [exact Hkey|exact Htruthy| |apply Hfwd].
    right. exact (Hdata _ key Hkey).
  - right. split; [reflexivity|]. apply detach_skip, Htruthy.
Qed.

(** Every handler that returns keeps the state plain. *)
Lemma handle_plain_state e st :
  plain_state st →
  returned (handle e st) = true →
  plain_state (final_state (handle e st)).
Proof.
  intros Hst Hret.
  destruct e as [s|s p now|s [K|]|s to from now|s r|s r P|s r P|s];
    cbn [handle] in *.
  - destruct Hst as (Hps & Hfwd & Hdata). split; [exact Hps|].
    split; [exact Hfwd|].
    unfold data_notifiable. simpl. apply map_Forall_delete, Hdata.
  - destruct (decide (admitted s now st)) as [Hadm|Hadm].
    + destruct (truthy (prop p)) eqn:Hp.
      * destruct p as [p|]; [|discriminate].
        apply truthy_prop_Some in Hp.
        destruct (on_register_effects s p now st Hadm Hp) as [Hfinal _].
        rewrite Hfinal.
        assert (Hkey : notifiable (normKey p)).
        { destruct Hst as (Hps & _).
          unfold on_register, bind at 1 in Hret.
          rewrite rate_limited_run in Hret. unfold admitted in Hadm.
          rewrite Hadm, (truthy_prop_nonempty p Hp) in Hret.
          cbn [negb] in Hret. change (default "" (Some p)) with p in Hret.
          unfold bind at 1, modify at 1 in Hret.
          unfold bind at 1, modify at 1 in Hret.
          match type of Hret with context [notify ?k ?s ?st'] =>
            apply (notify_returned k s st');
              [destruct (notify k s st'); [reflexivity|discriminate]
              |exact Hps] end. }
        destruct Hst as (Hps & Hfwd & Hdata). split; [exact Hps|].
        split; [exact Hfwd|].
        unfold data_notifiable, registered. simpl.
        apply map_Forall_insert_2; [exact Hkey|exact Hdata].
      * destruct (on_register_missing s p now st Hp) as [rl ->].
        apply (plain_state_ext st); [reflexivity..|exact Hst].
    + rewrite (on_register_limited s p now st Hadm). exact Hst.
  - assert (HK : Forall (λ k, plain_key (normKey k)) K).
    { destruct Hst as (Hps & Hfwd & _).
      unfold on_subscribe_to_presence, bind at 1, gets at 1 in Hret.
      unfold bind at 1 in Hret.
      rewrite (cleanup_run (sock_id s) st (Hfwd _)) in Hret.
      unfold bind at 1, modify at 1 in Hret. unfold bind at 1 in Hret.
      match type of Hret with
        context [forEach K (add_subscriber ?sid) ?st'] =>
          apply (forEach_add_returned sid K st');
            [unfold presence_plain; simpl; unfold pruned;
             apply prune_plain, Hps
            |destruct (forEach K (add_subscriber sid) st');
             [reflexivity|discriminate]] end. }
    rewrite on_subscribe_run; [|apply Hst|exact HK].
    apply subscribed_plain; assumption.
  - discriminate.
  - destruct (on_request_connection_keeps_subscriptions s to from now st)
      as (_ & H1 & H2 & H3).
    apply (plain_state_ext st); assumption.
  - apply (plain_state_ext st); [reflexivity..|exact Hst].
  - exact Hst.
  - exact Hst.
  - destruct (detach_plain_run s st Hst) as [(key & _ & _ & ->)|[_ ->]].
    + apply torn_down_plain, Hst.
    + apply (plain_state_ext st); [reflexivity..|exact Hst].
Qed.

Lemma handle_transposed e st :
  tidy e →
  plain_state st →
  (∀ x, transposed st x) →
  ∀ x, transposed (final_state (handle e st)) x.
Proof.
  intros He Hplain Hst x.
  destruct e as [s|s p now|s [K|]|s to from now|s r|s r P|s r P|s];
    cbn [handle].
  - apply (transposed_ext st); [reflexivity..|apply Hst].
  - destruct (on_register_keeps_subscriptions s p now st) as [H1 H2].
    apply (transposed_ext st); auto.
  - cbn [tidy] in He.
    assert (Hnorm : Forall normalized K).
    { eapply Forall_impl; [exact He|]. intros k [Hk _]. exact Hk. }
    assert (HK : Forall (λ k, plain_key (normKey k)) K).
    { eapply Forall_impl; [exact He|]. intros k [Hk Hp].
      unfold normalized in Hk. rewrite Hk. exact Hp. }
    rewrite on_subscribe_run; [|apply Hplain|exact HK].
    cbn [final_state].
    destruct (decide (x = sock_id s)) as [->|Hne].
    + apply subscribed_transposed; [exact Hnorm|apply Hst].
    + apply subscribed_transposed_others; [exact Hne|apply Hst].
  - apply Hst.
  - destruct (on_request_connection_keeps_subscriptions s to from now st)
      as (_ & H1 & H2 & _).
    apply (transposed_ext st); auto.
  - apply (transposed_ext st); [reflexivity..|apply Hst].
  - apply Hst.
  - apply Hst.
  - destruct (detach_plain_run s st Hplain) as [(key & _ & _ & ->)|[_ ->]].
    + apply torn_down_transposed; apply Hst.
    + apply (transposed_ext st); [reflexivity..|apply Hst].
Qed.

Lemma after_cons e history st :
  after (e :: history) st
  = if returned (handle e st) then after history (final_state (handle e st))
    else final_state (handle e st).
Proof.
  unfold after. cbn [forEach]. unfold bind.
  destruct (handle e st) as [[] st1 out1|err st1 out1]; [|reflexivity].
  cbn [returned final_state].
  destruct (forEach history handle st1); reflexivity.
Qed.

(** From a plain state whose indices are in step, any history of requests
    with plain normalized keys keeps the reverse index the transpose of the
    forward one, for every socket, up to and including a handler that
    throws. *)
Lemma tidy_history_transposed history : ∀ st,
  Forall tidy history →
  plain_state st →
  (∀ x, transposed st x) →
  ∀ x, transposed (after history st) x.
Proof.
  induction history as [|e history IH]; intros st Htidy Hplain Hst.
  - exact Hst.
  - apply Forall_cons in Htidy as [He Htidy]. rewrite after_cons.
    pose proof (handle_transposed e st He Hplain Hst) as Hnext.
    destruct (returned (handle e st)) eqn:Hret; [|exact Hnext].
    apply IH; [exact Htidy| |exact Hnext].
    apply handle_plain_state; assumption.
Qed.

(** A history in which every handler returns leaves a plain state. *)
Lemma returned_history_plain history : ∀ st,
  plain_state st →
  returned (forEach history handle st) = true →
  plain_state (after history st).
Proof.
  induction history as [|e history IH]; intros st Hplain Hret.
  - exact Hplain.
  - rewrite after_cons. cbn [forEach] in Hret.
    apply bind_returned in Hret as ([] & st1 & out1 & Hrun & Hret).
    rewrite Hrun. cbn [returned final_state]. apply IH; [|exact Hret].
    pose proof (handle_plain_state e st Hplain) as Hnext.
    rewrite Hrun in Hnext. apply Hnext. reflexivity.
Qed.

(** The defect behind C1 in general: a key that is not in normal form is
    never cleaned up, whatever the next request asks for. *)
Lemma resubscribe_residue s k K2 st :
  normKey k ≠ k →
  plain_key (normKey k) →
  plain_state st →
  Forall (λ k, plain_key (normKey k)) K2 →
  let st1 := final_state (on_subscribe_to_presence s (Some [k]) st) in
  let st2 := final_state (on_subscribe_to_presence s (Some K2) st1) in
  socketSubscriptions st1 !! sock_id s = Some [k]
  ∧ mentions (presenceSubscriptions st2) (sock_id s) (normKey k).
Proof.
  intros Hk Hplain Hst HK2 st1 st2.
  assert (Hk1 : Forall (λ k, plain_key (normKey k)) [k])
    by (repeat constructor; exact Hplain).
  assert (Hst1 : st1 = subscribed s [k] st).
  { subst st1. rewrite on_subscribe_run; [reflexivity|apply Hst|exact Hk1]. }
  assert (Hfwd : socketSubscriptions st1 !! sock_id s = Some [k]).
  { rewrite Hst1. simpl. apply lookup_insert_eq. }
  split; [exact Hfwd|].
  assert (Hplain1 : plain_state st1).
  { rewrite Hst1. apply subscribed_plain; assumption. }
  subst st2. rewrite on_subscribe_run; [|apply Hplain1|exact HK2].
  cbn [final_state]. rewrite subscribed_mentions. unfold subs_of.
  rewrite Hfwd. left. split.
  - rewrite Hst1, subscribed_mentions. right. split; [reflexivity|].
    rewrite fmap_cons. left.
  - simpl. rewrite list_elem_of_singleton. intros [_ Heq]. congruence.
Qed.

(** The defect behind C2 in general: the disconnect of a socket that carries
    no key emits nothing and leaves the three indices as they were. *)
Lemma detach_unregistered s st :
  socketData st !! sock_id s = None →
  emitted (detach s st) = []
  ∧ same_indices st (final_state (detach s st)).
Proof.
  intros Hdata. rewrite detach_skip by (rewrite Hdata; reflexivity).
  unfold same_indices. simpl. tauto.
Qed.

Lemma initial_transposed x : transposed initial x.
Proof.
  intros key. unfold mentions, subs_of. simpl. rewrite !lookup_empty. simpl.
  rewrite elem_of_nil. split; [|tauto]. intros (ids & [=] & _).
Qed.

End transposition.
(** * Part III: further properties of the code *)

(** ** Normalizer *)

Section normalizer_more.

Lemma normKey_chars k :
  list_ascii_of_string (normKey k)
  = List.filter (λ c, negb (is_space c)) (list_ascii_of_string k).
Proof.
  induction k as [|c k IH]; [reflexivity|].
  cbn [normKey list_ascii_of_string List.filter].
  destruct (is_space c); cbn [negb]; [exact IH|].
  cbn [list_ascii_of_string]. rewrite IH. reflexivity.
Qed.

(** X1. [normKey] is idempotent, and it keeps exactly the characters of
    its argument that are not whitespace, in their order; so its result
    holds no whitespace, and it returns its argument unchanged exactly when
    the argument holds none. *)
Theorem normKey_keeps_non_whitespace (k : string) :
  normKey (normKey k) = normKey k
  ∧ list_ascii_of_string (normKey k)
    = List.filter (λ c, negb (is_space c)) (list_ascii_of_string k)
  ∧ Forall (λ c, is_space c = false) (list_ascii_of_string (normKey k))
  ∧ (normKey k = k
     ↔ Forall (λ c, is_space c = false) (list_ascii_of_string k)).
Proof.
  split; [apply normKey_idempotent|]. split; [apply normKey_chars|].
  split.
  - rewrite normKey_chars. apply Forall_forall. intros c Hc.
    apply list_elem_of_In, List.filter_In in Hc as [_ Hc].
    destruct (is_space c); [discriminate|reflexivity].
  - induction k as [|c k IH]; [split; [constructor|reflexivity]|].
    cbn [normKey list_ascii_of_string]. split.
    + intros Heq. destruct (is_space c) eqn:E.
      * exfalso.
        assert (Hlen : (String.length (normKey k) ≤ String.length k)%nat).
        { clear. induction k as [|d k IH]; [reflexivity|].
          cbn. destruct (is_space d); cbn; lia. }
        rewrite Heq in Hlen. cbn in Hlen. lia.
      * injection Heq as Heq. constructor; [exact E|]. apply IH, Heq.
    + intros Hall. apply Forall_cons in Hall as [E Hall].
      rewrite E. f_equal. apply IH, Hall.
Qed.

End normalizer_more.

(** ** Rate limiter *)

Section rate_limiter_more.

(** X2. A call from one address leaves the record of every other address
    as it was, and a blocked call leaves the whole map as it was. *)
Theorem isRateLimited_touches_one_address (ip ip' : string) (now : Z)
    (rl : gmap string record) :
  (ip' ≠ ip → snd (isRateLimited ip now rl) !! ip' = rl !! ip')
  ∧ (fst (isRateLimited ip now rl) = true → snd (isRateLimited ip now rl) = rl).
Proof.
  unfold isRateLimited. destruct (rl !! ip) as [rec|].
  - destruct (TIME_FRAME <? now - startTime rec).
    + split; [intros Hne; apply lookup_insert_ne; congruence|discriminate].
    + destruct (LIMIT <=? count rec).
      * split; reflexivity.
      * split; [intros Hne; apply lookup_insert_ne; congruence|discriminate].
  - split; [intros Hne; apply lookup_insert_ne; congruence|discriminate].
Qed.

Lemma isRateLimited_touches_one_address_witness :
  snd (isRateLimited "203.0.113.7" 5 ∅) !! "203.0.113.8" = None.
Proof.
  destruct (isRateLimited_touches_one_address "203.0.113.7" "203.0.113.8" 5 ∅)
    as [H _].
  rewrite H; [apply lookup_empty|discriminate].
Defined.

(** X3. If every stored count lies between 1 and the ceiling, it still does
    after any call: the limiter never stores a count outside 1..20. *)
Theorem isRateLimited_keeps_counts_bounded (ip : string) (now : Z)
    (rl : gmap string record) :
  map_Forall (λ _ rec, 1 ≤ count rec ≤ LIMIT) rl →
  map_Forall (λ _ rec, 1 ≤ count rec ≤ LIMIT) (snd (isRateLimited ip now rl)).
Proof.
  intros Hrl. unfold isRateLimited.
  destruct (rl !! ip) as [rec|] eqn:Hrec.
  - destruct (TIME_FRAME <? now - startTime rec).
    + apply map_Forall_insert_2; [unfold LIMIT; simpl; lia|exact Hrl].
    + destruct (Z.leb_spec LIMIT (count rec)); [exact Hrl|].
      apply map_Forall_insert_2; [|exact Hrl]. simpl.
      specialize (Hrl ip rec Hrec). simpl in Hrl. lia.
  - apply map_Forall_insert_2; [unfold LIMIT; simpl; lia|exact Hrl].
Qed.

Lemma isRateLimited_keeps_counts_bounded_witness :
  map_Forall (λ _ rec, 1 ≤ count rec ≤ LIMIT)
    (snd (isRateLimited "203.0.113.7" 5 ∅)).
Proof.
  apply (isRateLimited_keeps_counts_bounded "203.0.113.7" 5 ∅).
  apply map_Forall_empty.
Defined.

(** X4. Once an address has used up its window, every further call inside
    the window is blocked and changes nothing, however many there are: the
    blocked calls do not push the end of the window back, and the first
    call after the window is let through. *)
Theorem blocked_until_window_ends (ip : string) (rl : gmap string record)
    (rec : record) (times : list Z) (later : Z) :
  rl !! ip = Some rec →
  LIMIT ≤ count rec →
  Forall (λ t, t - startTime rec ≤ TIME_FRAME) times →
  TIME_FRAME < later - startTime rec →
  admits ip times rl = (replicate (length times) true, rl)
  ∧ fst (admits ip (times ++ [later]) rl)
    = replicate (length times) true ++ [false].
Proof.
  intros Hrec Hfull Hwin Hlater.
  assert (Hblocked : admits ip times rl = (replicate (length times) true, rl)).
  { induction Hwin as [|t times Ht _ IH]; [reflexivity|].
    cbn [admits]. destruct rec as [c t0]. simpl in *.
    rewrite (isRateLimited_full ip t rl c t0 Hrec Ht Hfull), IH.
    reflexivity. }
  split; [exact Hblocked|].
  rewrite admits_app, Hblocked. cbn [fst snd admits].
  rewrite (isRateLimited_fresh ip later rl); [reflexivity|].
  unfold opens_window. rewrite Hrec. exact Hlater.
Qed.

Lemma blocked_until_window_ends_witness :
  let rl := <["203.0.113.7" := mkRecord 20 1000]> ∅ in
  admits "203.0.113.7" [2000; 3000; 61000] rl = ([true; true; true], rl)
  ∧ fst (admits "203.0.113.7" ([2000; 3000; 61000] ++ [61001]) rl)
    = [true; true; true; false].
Proof.
  intros rl.
  apply (blocked_until_window_ends "203.0.113.7" rl (mkRecord 20 1000)
           [2000; 3000; 61000] 61001).
  - apply lookup_insert_eq.
  - unfold LIMIT. simpl. lia.
  - repeat constructor; unfold TIME_FRAME; simpl; lia.
  - unfold TIME_FRAME. simpl. lia.
Defined.

End rate_limiter_more.


(** ** Registration *)

Section registration_more.

Lemma on_register_rateLimit s p now st :
  notifiable (normKey (default "" p)) →
  returned (on_register s p now st) = true
  ∧ rateLimit (final_state (on_register s p now st))
    = snd (isRateLimited (handshake_address s) now (rateLimit st)).
Proof.
  intros Hkey.
  destruct (decide (admitted s now st)) as [Hadm|Hadm].
  - destruct (truthy (prop p)) eqn:Hp.
    + destruct p as [p|]; [|discriminate].
      apply truthy_prop_Some in Hp.
      rewrite (on_register_run s p now st Hadm Hp); [|right; exact Hkey].
      split; reflexivity.
    + unfold on_register, bind. rewrite rate_limited_run.
      unfold admitted in Hadm. rewrite Hadm, Hp. split; reflexivity.
  - rewrite (on_register_limited s p now st Hadm).
    split; [reflexivity|]. cbn [final_state].
    unfold admitted in Hadm. unfold isRateLimited in *.
    destruct (rateLimit st !! handshake_address s) as [rec|]; [|done].
    destruct (TIME_FRAME <? now - startTime rec); [done|].
    destruct (LIMIT <=? count rec); [|done]. reflexivity.
Qed.

Lemma register_calls_cons s p now calls st :
  returned (on_register s p now st) = true →
  final_state (register_calls ((s, p, now) :: calls) st)
  = final_state (register_calls calls (final_state (on_register s p now st))).
Proof.
  intros Hret. unfold register_calls. cbn [forEach]. unfold bind.
  cbn [fst snd].
  destruct (on_register s p now st) as [[] st1 out1|e st1 out1];
    [|discriminate].
  cbn [final_state].
  destruct (forEach calls _ st1); reflexivity.
Qed.

(** X5. Every [register] call is counted against the address of the
    calling socket, whatever it carries and whether or not it is let
    through: after a run of calls from sockets that share an address, none
    of which trips the fan-out over an inherited member, the rate-limit
    map is the one the limiter reaches for that address over the times of
    the calls. Calls without an identity use up the budget like the
    others. *)
Theorem register_calls_are_counted (ip : string)
    (calls : list (socket * option string * Z)) : ∀ st : state,
  Forall (λ call, handshake_address (call.1.1) = ip) calls →
  Forall (λ call, notifiable (normKey (default "" (call.1.2)))) calls →
  rateLimit (final_state (register_calls calls st))
  = snd (admits ip (snd <$> calls) (rateLimit st)).
Proof.
  induction calls as [|[[s p] now] calls IH]; intros st Hip Hkeys.
  - reflexivity.
  - apply Forall_cons in Hip as [Hs Hip].
    apply Forall_cons in Hkeys as [Hkey Hkeys]. simpl in Hs, Hkey.
    destruct (on_register_rateLimit s p now st Hkey) as [Hret Hrl].
    rewrite (register_calls_cons s p now calls st Hret).
    rewrite IH by assumption. rewrite Hrl.
    rewrite fmap_cons. cbn [snd admits]. rewrite Hs.
    destruct (isRateLimited ip now (rateLimit st)) as [b rl1].
    cbn [snd]. destruct (admits ip (snd <$> calls) rl1). reflexivity.
Qed.

Lemma register_calls_are_counted_witness :
  let a := mkSocket "sA" "203.0.113.7" in
  let b := mkSocket "sB" "203.0.113.7" in
  rateLimit (final_state
               (register_calls [(a, None, 10); (b, Some "pk_b", 20)] initial))
    !! "203.0.113.7" = Some (mkRecord 2 10).
Proof.
  intros a b.
  rewrite (register_calls_are_counted "203.0.113.7"
             [(a, None, 10); (b, Some "pk_b", 20)] initial).
  - vm_compute. reflexivity.
  - repeat constructor.
  - repeat constructor.
Defined.

(** X6. Registration does not see whitespace: a key whose normal form is
    not empty and the normal form itself have the same effect and the same
    fan-out. *)
Theorem register_ignores_whitespace (st : state) (s : socket) (p : string)
    (now : Z) :
  normKey p ≠ "" →
  on_register s (Some p) now st = on_register s (Some (normKey p)) now st.
Proof.
  intros Hkey. pose proof (normKey_nonempty p Hkey) as Hp.
  unfold on_register, bind at 1. unfold bind at 3.
  rewrite rate_limited_run.
  destruct (fst (isRateLimited _ _ _)); [reflexivity|].
  rewrite (truthy_prop_nonempty p Hp), (truthy_prop_nonempty _ Hkey).
  cbn [negb]. change (default "" (Some ?x)) with x.
  rewrite normKey_idempotent. reflexivity.
Qed.

Lemma register_ignores_whitespace_witness :
  let s := mkSocket "sA" "203.0.113.7" in
  on_register s (Some " pk a ") 10 initial
  = on_register s (Some "pka") 10 initial.
Proof.
  intros s. apply (register_ignores_whitespace initial s " pk a " 10).
  discriminate.
Defined.

(** X7. The fan-out of a registration that goes through reaches exactly
    the subscriber entries of the key at that moment: a socket receives one
    [presence-update] with status online for each entry in whose room it
    sits, and nothing else; with no entry for the key nobody receives
    anything. *)
Theorem register_fan_out_is_exact (st : state) (s : socket) (p : string)
    (now : Z) (x : string) :
  admitted s now st →
  p ≠ "" →
  let o := on_register s (Some p) now st in
  let subs := default [] (presenceSubscriptions st !! normKey p) in
  inbox (rooms (final_state o)) x (emitted o)
  = replicate (length (filter (λ sub, x ∈ members (rooms st) sub) subs))
      ("presence-update", presence_payload (normKey p) "online")
  ∧ (presenceSubscriptions st !! normKey p = None →
     inbox (rooms (final_state o)) x (emitted o) = []).
Proof.
  intros Hadm Hp o subs. subst o subs.
  destruct (on_register_effects s p now st Hadm Hp) as [-> ->].
  change (rooms (registered s (normKey p) now st)) with (rooms st).
  rewrite inbox_fan_out_count. split; [reflexivity|].
  unfold subs_of. intros ->. reflexivity.
Qed.

Lemma register_fan_out_is_exact_witness :
  let A := mkSocket "sA" "198.51.100.1" in
  let B := mkSocket "sB" "198.51.100.2" in
  let st := after [Connection A; Connection B;
                   SubscribeToPresence B (Some ["pk_a"; "pk_a"])] initial in
  let o := on_register A (Some "pk_a") 10 st in
  let online := ("presence-update", presence_payload "pk_a" "online") in
  inbox (rooms (final_state o)) "sB" (emitted o) = [online; online].
Proof.
  intros A B st o online.
  destruct (register_fan_out_is_exact st A "pk_a" 10 "sB") as [H _].
  - reflexivity.
  - discriminate.
  - subst o. rewrite H. vm_compute. reflexivity.
Defined.

(** X8. A socket that registers a second key keeps the registry entry of
    the first: its disconnect removes only the key it registered last, and
    the first key goes on resolving to the closed socket. The two keys are
    plain, and so are the keys the socket subscribed to. *)
Theorem reregistration_leaves_stale_entry (st : state) (C : socket)
    (p1 p2 : string) (now1 now2 : Z) :
  normKey p1 ≠ "" →
  normKey p2 ≠ "" →
  normKey p1 ≠ normKey p2 →
  plain_key (normKey p1) →
  plain_key (normKey p2) →
  forward_plain st (sock_id C) →
  let st1 := final_state (on_register C (Some p1) now1 st) in
  let st2 := final_state (on_register C (Some p2) now2 st1) in
  let st3 := final_state (detach C st2) in
  admitted C now1 st →
  admitted C now2 st1 →
  lookup st3 p1 = Own (sock_id C)
  ∧ lookup st3 p2 = Absent
  ∧ (∀ room, sock_id C ∉ members (rooms st3) room).
Proof.
  intros Hk1 Hk2 Hne Hplain1 Hplain2 Hfwd st1 st2 st3 Hadm1 Hadm2.
  pose proof (normKey_nonempty p1 Hk1) as Hp1.
  pose proof (normKey_nonempty p2 Hk2) as Hp2.
  assert (Hst1 : st1 = registered C (normKey p1) now1 st).
  { subst st1. apply (on_register_effects C p1 now1 st Hadm1 Hp1). }
  assert (Hst2 : st2 = registered C (normKey p2) now2 st1).
  { subst st2. apply (on_register_effects C p2 now2 st1 Hadm2 Hp2). }
  assert (Hdata : socketData st2 !! sock_id C = Some (normKey p2)).
  { rewrite Hst2. simpl. apply lookup_insert_eq. }
  assert (Hrun : detach C st2
                 = Returned tt (torn_down C (normKey p2) st2)
                     (fan_out (normKey p2) "offline"
                        (subs_of (presenceSubscriptions st2) (normKey p2)))).
  { apply detach_run; [exact Hdata|exact Hk2| |].
    - right. apply plain_notifiable, Hplain2.
    - rewrite Hst2, Hst1. exact Hfwd. }
  subst st3. rewrite Hrun. unfold lookup. cbn [final_state].
  split; [|split].
  - apply obj_get_own. simpl.
    rewrite lookup_delete_ne by congruence. rewrite Hst2. simpl.
    rewrite obj_set_other by congruence. rewrite Hst1.
    apply registered_lookup. apply plain_not_proto, Hplain1.
  - apply obj_get_absent; [|exact Hplain2]. simpl. apply lookup_delete_eq.
  - intros room Hin. simpl in Hin.
    apply members_leave in Hin as [_ Hin]. congruence.
Qed.

Lemma reregistration_leaves_stale_entry_witness :
  let C := mkSocket "c1" "198.51.100.1" in
  let st := after [Connection C] initial in
  let st1 := final_state (on_register C (Some "pk_1") 10 st) in
  let st2 := final_state (on_register C (Some "pk_2") 20 st1) in
  let st3 := final_state (detach C st2) in
  lookup st3 "pk_1" = Own "c1"
  ∧ lookup st3 "pk_2" = Absent
  ∧ (∀ room, "c1" ∉ members (rooms st3) room).
Proof.
  intros C st.
  apply (reregistration_leaves_stale_entry st C "pk_1" "pk_2" 10 20).
  - discriminate.
  - discriminate.
  - discriminate.
  - reflexivity.
  - reflexivity.
  - constructor.
  - reflexivity.
  - vm_compute. reflexivity.
Defined.

End registration_more.

(** ** Subscriptions *)

Section subscriptions_more.

(** X9. A subscription request of [S] leaves the registry alone and, in
    every subscriber list, the other sockets exactly as they were, in their
    order: it only removes and appends entries of [S] itself. The forward
    entries of the other sockets are untouched as well. *)
Theorem subscribe_leaves_others_alone (st : state) (S : socket)
    (K : list string) (key : string) :
  let st' := final_state (on_subscribe_to_presence S (Some K) st) in
  userSockets st' = userSockets st
  ∧ filter (λ id, id ≠ sock_id S) (subs_of (presenceSubscriptions st') key)
    = filter (λ id, id ≠ sock_id S) (subs_of (presenceSubscriptions st) key)
  ∧ (∀ x, x ≠ sock_id S →
       socketSubscriptions st' !! x = socketSubscriptions st !! x).
Proof.
  intros st'. subst st'.
  destruct (on_subscribe_others S (Some K) st)
    as (_ & _ & _ & _ & Hus & Hps & Hfwd).
  split; [|split; [apply Hps|exact Hfwd]].
  apply map_eq. intros k. apply Hus. discriminate.
Qed.

Lemma subscribe_leaves_others_alone_witness :
  let A := mkSocket "sA" "198.51.100.1" in
  let B := mkSocket "sB" "198.51.100.2" in
  let st := after [Connection A; Connection B;
                   SubscribeToPresence A (Some ["pk_x"]);
                   SubscribeToPresence B (Some ["pk_x"])] initial in
  let st' := final_state (on_subscribe_to_presence A (Some []) st) in
  filter (λ id, id ≠ "sA") (subs_of (presenceSubscriptions st') "pk_x")
  = ["sB"]
  ∧ socketSubscriptions st' !! "sB" = Some ["pk_x"].
Proof.
  intros A B st.
  destruct (subscribe_leaves_others_alone st A [] "pk_x") as (_ & Hlist & Hfwd).
  split.
  - etransitivity; [exact Hlist|]. vm_compute. reflexivity.
  - etransitivity; [apply (Hfwd "sB"); discriminate|].
    vm_compute. reflexivity.
Defined.

Lemma occurrences_app sid l1 l2 :
  occurrences sid (l1 ++ l2) = (occurrences sid l1 + occurrences sid l2)%nat.
Proof. unfold occurrences. rewrite filter_app, length_app. reflexivity. Qed.

Lemma occurrences_zero sid ids : sid ∉ ids → occurrences sid ids = 0%nat.
Proof.
  unfold occurrences. induction ids as [|id ids IH]; intros Hout;
    [reflexivity|].
  apply not_elem_of_cons in Hout as [Hne Hout].
  rewrite filter_cons, decide_False by congruence. apply IH, Hout.
Qed.

Lemma add_all_occurrences sid K : ∀ ps key,
  occurrences sid (subs_of (foldl (add_own sid) ps K) key)
  = (occurrences sid (subs_of ps key)
     + length (filter (λ k, normKey k = key) K))%nat.
Proof.
  induction K as [|k K IH]; intros ps key; cbn [foldl].
  - rewrite filter_nil. simpl. lia.
  - rewrite IH, add_own_subs, filter_cons.
    destruct (decide (key = normKey k)) as [->|Hne].
    + rewrite decide_True by reflexivity. rewrite occurrences_app.
      unfold occurrences at 2. rewrite filter_cons, decide_True by reflexivity.
      simpl. lia.
    + rewrite decide_False by congruence. reflexivity.
Qed.

(** X10. When the two indices were in step for [S] and the keys on both
    sides are plain, after [subscribe(S, K)] the socket [S] occurs under a
    key as often as [K] holds entries with that normal form: a request
    that names an identity twice, or under two spellings, subscribes [S]
    to it twice. *)
Theorem subscribe_counts_duplicates (st : state) (S : socket)
    (K : list string) (key : string) :
  transposed st (sock_id S) →
  forward_plain st (sock_id S) →
  Forall (λ k, plain_key (normKey k)) K →
  let st' := final_state (on_subscribe_to_presence S (Some K) st) in
  occurrences (sock_id S) (subs_of (presenceSubscriptions st') key)
  = length (filter (λ k, normKey k = key) K).
Proof.
  intros Htr Hfwd HK st'. subst st'. rewrite on_subscribe_run by assumption.
  cbn [final_state subscribed presenceSubscriptions].
  rewrite add_all_occurrences.
  rewrite occurrences_zero; [reflexivity|].
  intros Hin.
  assert (Hm : mentions (pruned (sock_id S) st) (sock_id S) key).
  { unfold mentions, subs_of in *.
    destruct (pruned (sock_id S) st !! key) as [ids|]; [eauto|].
    simpl in Hin. inversion Hin. }
  unfold pruned in Hm. apply prune_mentions in Hm as [Hm Hnot].
  apply Hnot. split; [reflexivity|]. apply Htr, Hm.
Qed.

Lemma subscribe_counts_duplicates_witness :
  let S := mkSocket "s1" "198.51.100.1" in
  let st' := final_state
               (on_subscribe_to_presence S (Some ["pk_a"; "pk _a"; "pk_b"])
                  initial) in
  occurrences "s1" (subs_of (presenceSubscriptions st') "pk_a") = 2%nat.
Proof.
  intros S.
  apply (subscribe_counts_duplicates initial S ["pk_a"; "pk _a"; "pk_b"]
           "pk_a" (initial_transposed "s1")).
  - constructor.
  - repeat constructor.
Defined.

(** X11. Subscribing with an empty list is valid: when the two indices
    were in step for [S] and every subscriber list sits under a plain key,
    it removes [S] from the whole reverse index, leaves [S] with an empty
    forward entry, and replies with an empty list. *)
Theorem subscribe_empty_clears (st : state) (S : socket) :
  transposed st (sock_id S) →
  presence_plain st →
  let o := on_subscribe_to_presence S (Some []) st in
  returned o = true
  ∧ (∀ key, ¬ mentions (presenceSubscriptions (final_state o)) (sock_id S) key)
  ∧ socketSubscriptions (final_state o) !! sock_id S = Some []
  ∧ emitted o = [SocketEmit (sock_id S) "presence-initial-status" (JArr [])].
Proof.
  intros Htr Hps o. subst o.
  rewrite on_subscribe_run;
    [|apply transposed_forward_plain; assumption|constructor].
  split; [reflexivity|]. cbn [final_state emitted].
  split; [|split; [apply lookup_insert_eq|reflexivity]].
  intros key. rewrite (subscribed_reverse_index S [] st key Htr).
  rewrite fmap_nil. apply not_elem_of_nil.
Qed.

Lemma subscribe_empty_clears_witness :
  let S := mkSocket "s1" "198.51.100.1" in
  let st := after [Connection S;
                   SubscribeToPresence S (Some ["pk_a"; "pk_b"])] initial in
  let o := on_subscribe_to_presence S (Some []) st in
  presenceSubscriptions (final_state o) = ∅
  ∧ socketSubscriptions (final_state o) !! "s1" = Some [].
Proof.
  intros S st o.
  assert (Htr : transposed st (sock_id S)).
  { apply tidy_history_transposed;
      [|apply plain_state_initial|apply initial_transposed].
    repeat constructor. }
  assert (Hps : presence_plain st).
  { apply (bool_decide_unpack _). vm_compute. exact I. }
  destruct (subscribe_empty_clears st S Htr Hps) as (_ & _ & Hfwd & _).
  split; [vm_compute; reflexivity|exact Hfwd].
Defined.

(** X12. Starting from the empty server, every history of events whose
    subscription requests carry plain keys in normal form keeps, for every
    socket, the reverse index the exact transpose of the socket's forward
    entry. *)
Theorem indices_stay_in_step (history : list event) (x key : string) :
  Forall tidy history →
  mentions (presenceSubscriptions (after history initial)) x key
  ↔ key ∈ default [] (socketSubscriptions (after history initial) !! x).
Proof.
  intros Htidy.
  apply (tidy_history_transposed history initial Htidy plain_state_initial
           initial_transposed x key).
Qed.

Lemma indices_stay_in_step_witness :
  let A := mkSocket "sA" "198.51.100.1" in
  let B := mkSocket "sB" "198.51.100.2" in
  let history := [Connection A; Connection B; Register A (Some "pk_a") 10;
                  SubscribeToPresence B (Some ["pk_a"; "pk_c"]);
                  SubscribeToPresence B (Some ["pk_c"]); Disconnect A] in
  mentions (presenceSubscriptions (after history initial)) "sB" "pk_c"
  ∧ ¬ mentions (presenceSubscriptions (after history initial)) "sB" "pk_a".
Proof.
  intros A B history.
  assert (Htidy : Forall tidy history).
  { repeat constructor; reflexivity. }
  split.
  - apply (indices_stay_in_step history "sB" "pk_c" Htidy).
    vm_compute. left.
  - intros Hm.
    apply (indices_stay_in_step history "sB" "pk_a" Htidy) in Hm.
    vm_compute in Hm. apply list_elem_of_singleton in Hm. discriminate.
Defined.

End subscriptions_more.

(** ** Teardown *)

Section teardown_more.

(** X13. When a closing socket carries a key that passes the fan-out test,
    its forward entry is in step with the reverse index and every
    subscriber list sits under a plain key, its teardown notifies the
    subscribers of the key and unwinds all three indices: no subscriber
    list names the socket any more, its forward entry is gone, and so is
    the registry entry of the key. *)
Theorem teardown_unwinds (st : state) (S : socket) (key : string) :
  transposed st (sock_id S) →
  socketData st !! sock_id S = Some key →
  key ≠ "" →
  notifiable key →
  presence_plain st →
  let o := detach S st in
  returned o = true
  ∧ emitted o
    = fan_out key "offline" (default [] (presenceSubscriptions st !! key))
  ∧ (∀ k, ¬ mentions (presenceSubscriptions (final_state o)) (sock_id S) k)
  ∧ socketSubscriptions (final_state o) !! sock_id S = None
  ∧ userSockets (final_state o) !! key = None.
Proof.
  intros Htr Hdata Hkey Hnotify Hps o. subst o.
  rewrite (detach_run S key st Hdata Hkey);
    [|right; exact Hnotify|apply transposed_forward_plain; assumption].
  cbn [returned emitted final_state].
  split; [reflexivity|]. split; [reflexivity|].
  apply torn_down_unwinds, Htr.
Qed.

Lemma teardown_unwinds_witness :
  let A := mkSocket "sA" "198.51.100.1" in
  let st := after [Connection A; Register A (Some "pk_a") 10;
                   SubscribeToPresence A (Some ["pk_b"; "pk_a"])] initial in
  let o := detach A st in
  presenceSubscriptions (final_state o) = ∅
  ∧ socketSubscriptions (final_state o) !! "sA" = None
  ∧ userSockets (final_state o) !! "pk_a" = None.
Proof.
  intros A st o.
  assert (Htr : transposed st (sock_id A)).
  { apply tidy_history_transposed;
      [|apply plain_state_initial|apply initial_transposed].
    repeat constructor. }
  destruct (teardown_unwinds st A "pk_a" Htr) as (_ & _ & _ & H2 & H3).
  - vm_compute. reflexivity.
  - discriminate.
  - reflexivity.
  - apply (bool_decide_unpack _). vm_compute. exact I.
  - split; [vm_compute; reflexivity|]. split; [exact H2|exact H3].
Defined.

(** X14. The teardown of a socket touches nothing that belongs to others:
    in every subscriber list the other sockets stay as they were, in their
    order; the forward entries of the other sockets stay; every registry
    entry stays except the one under the key the closing socket carries;
    and the rate-limit map, the socket data and the store stay. *)
Theorem teardown_leaves_others_alone (st : state) (S : socket)
    (key : string) :
  let st' := final_state (detach S st) in
  filter (λ id, id ≠ sock_id S) (subs_of (presenceSubscriptions st') key)
  = filter (λ id, id ≠ sock_id S) (subs_of (presenceSubscriptions st) key)
  ∧ (∀ x, x ≠ sock_id S →
       socketSubscriptions st' !! x = socketSubscriptions st !! x)
  ∧ (socketData st !! sock_id S ≠ Some key →
       userSockets st' !! key = userSockets st !! key)
  ∧ rateLimit st' = rateLimit st
  ∧ socketData st' = socketData st
  ∧ storage st' = storage st.
Proof.
  intros st'. subst st'.
  destruct (detach_others S st) as (Hrl & Hdata & Hstore & _ & Hus & Hps & Hfwd).
  split; [apply Hps|]. split; [exact Hfwd|].
  split; [intros Hne; apply Hus; exact Hne|]. auto.
Qed.

Lemma teardown_leaves_others_alone_witness :
  let A := mkSocket "sA" "198.51.100.1" in
  let B := mkSocket "sB" "198.51.100.2" in
  let st := after [Connection A; Connection B; Register A (Some "pk_a") 10;
                   Register B (Some "pk_b") 20] initial in
  userSockets (final_state (detach A st)) !! "pk_b" = Some "sB".
Proof.
  intros A B st.
  destruct (teardown_leaves_others_alone st A "pk_b") as (_ & _ & Hreg & _).
  etransitivity; [apply Hreg|].
  - vm_compute. discriminate.
  - vm_compute. reflexivity.
Defined.

End teardown_more.

(** ** Relay *)

Section relay_more.

Lemma on_direct_run kind s to from st :
  on_direct kind s to from st
  = Returned tt st (relay_to (lookup st to) (direct_event kind from)).
Proof.
  unfold lookup.
  destruct kind; cbn [on_direct direct_event];
    unfold on_accept_connection, on_call_request, on_call_accepted,
      on_call_rejected, on_call_ended, bind, gets;
    destruct (obj_get (userSockets st) (normKey to)) as [tgt| |];
    cbn [read_truthy relay_to io_to fst snd];
    try destruct (truthy (JStr tgt)); reflexivity.
Qed.

(** No socket is in a room that is not a string. *)
Lemma inbox_relay_unregistered rs x target e :
  (∀ tgt, target ≠ Own tgt) → inbox rs x (relay_to target e) = [].
Proof.
  intros Htarget. destruct target as [tgt| |]; [|reflexivity..].
  destruct (Htarget tgt). reflexivity.
Qed.



(** X16. Addressing does not see whitespace: each relay handler does the
    same with [to] and [from] as with their normal forms. *)
Theorem relay_ignores_whitespace (kind : direct) (s : socket)
    (to from : string) (now : Z) (st : state) :
  on_direct kind s to from st
  = on_direct kind s (normKey to) (normKey from) st
  ∧ on_request_connection s to from now st
    = on_request_connection s (normKey to) (normKey from) now st.
Proof.
  split.
  - rewrite !on_direct_run. unfold lookup. rewrite normKey_idempotent.
    destruct kind; cbn [direct_event fst snd]; rewrite normKey_idempotent;
      reflexivity.
  - unfold on_request_connection. rewrite !normKey_idempotent. reflexivity.
Qed.

(** X17. No stale delivery: once the socket that holds a key has been torn
    down, a message addressed to the key reaches no socket, whichever of
    the relay handlers carries it. The key passes the fan-out test and the
    keys the socket subscribed to are plain, so that the teardown runs
    through. *)
Theorem no_delivery_after_teardown (st : state) (S : socket) (key : string)
    (kind : direct) (s : socket) (to from : string) (now : Z) (x : string) :
  socketData st !! sock_id S = Some key →
  key ≠ "" →
  notifiable key →
  forward_plain st (sock_id S) →
  normKey to = key →
  let st' := final_state (detach S st) in
  returned (detach S st) = true
  ∧ inbox (rooms st') x (emitted (on_direct kind s to from st')) = []
  ∧ inbox (rooms st') x
      (emitted (on_request_connection s to from now st')) = [].
Proof.
  intros Hdata Hkey Hnotify Hfwd Hto st'.
  assert (Hrun : returned (detach S st) = true).
  { rewrite (detach_run S key st Hdata Hkey); [reflexivity|auto|exact Hfwd]. }
  assert (Hgone : ∀ tgt, lookup st' to ≠ Own tgt).
  { intros tgt Hown. apply obj_get_Own_inv in Hown. rewrite Hto in Hown.
    subst st'.
    rewrite (disconnect_deletes_held S key st Hdata Hkey) in Hown;
      [discriminate|auto|exact Hfwd]. }
  split; [exact Hrun|]. split.
  - rewrite on_direct_run. apply inbox_relay_unregistered, Hgone.
  - destruct (decide (admitted s now st')) as [Hadm|Hadm].
    + rewrite (on_request_connection_run s to from now st' Hadm).
      cbn [emitted]. change (rooms (set_rateLimit ?r st')) with (rooms st').
      destruct (read_truthy (lookup st' to)).
      * apply inbox_relay_unregistered, Hgone.
      * unfold push_log. destruct (storage st' !! push_key to) as [sub|];
          [|reflexivity].
        destruct (truthy sub); reflexivity.
    + rewrite (on_request_connection_limited s to from now st' Hadm).
      reflexivity.
Qed.

Lemma no_delivery_after_teardown_witness :
  let A := mkSocket "sA" "198.51.100.1" in
  let B := mkSocket "sB" "198.51.100.2" in
  let st := after [Connection A; Connection B; Register B (Some "pk_b") 10]
              initial in
  let st' := final_state (detach B st) in
  returned (detach B st) = true
  ∧ inbox (rooms st') "sB" (emitted (on_direct CallEnded A "pk_b" "pk_a" st'))
    = []
  ∧ inbox (rooms st') "sB"
      (emitted (on_request_connection A "pk_b" "pk_a" 20 st'))
    = [].
Proof.
  intros A B st.
  apply (no_delivery_after_teardown st B "pk_b" CallEnded A "pk_b" "pk_a" 20
           "sB").
  - vm_compute. reflexivity.
  - discriminate.
  - reflexivity.
  - constructor.
  - reflexivity.
Defined.

(** X18. Relays follow the newest registration: after [C] and then [C2]
    have registered the same plain key, a message addressed to the key is
    emitted to the room of [C2] only. *)
Theorem relay_follows_supersession (st : state) (C C2 : socket) (p : string)
    (now now2 : Z) (kind : direct) (s : socket) (from : string) :
  p ≠ "" →
  plain_key (normKey p) →
  sock_id C2 ≠ "" →
  let st1 := final_state (on_register C (Some p) now st) in
  let st2 := final_state (on_register C2 (Some p) now2 st1) in
  admitted C now st →
  admitted C2 now2 st1 →
  returned (on_register C (Some p) now st) = true
  ∧ returned (on_register C2 (Some p) now2 st1) = true
  ∧ emitted (on_direct kind s p from st2)
    = [IoTo (sock_id C2) (fst (direct_event kind from))
         (snd (direct_event kind from))].
Proof.
  intros Hp Hplain Hid st1 st2 Hadm Hadm2.
  pose proof (plain_notifiable _ Hplain) as Hnotify.
  assert (Hlook : lookup st2 p = Own (sock_id C2)).
  { subst st2.
    destruct (on_register_effects C2 p now2 st1 Hadm2 Hp) as [-> _].
    apply obj_get_own, registered_lookup, plain_not_proto, Hplain. }
  split; [rewrite on_register_run; auto|].
  split; [rewrite on_register_run; auto|].
  rewrite on_direct_run, Hlook. cbn [emitted relay_to].
  rewrite (truthy_str_nonempty _ Hid). reflexivity.
Qed.

Lemma relay_follows_supersession_witness :
  let C := mkSocket "c1" "198.51.100.1" in
  let C2 := mkSocket "c2" "198.51.100.2" in
  let st1 := final_state (on_register C (Some "pk_i") 10 initial) in
  let st2 := final_state (on_register C2 (Some "pk_i") 20 st1) in
  emitted (on_direct AcceptConnection C "pk_i" "pk_x" st2)
  = [IoTo "c2" "connection-accepted" (JObj [("from", JStr "pk_x")])].
Proof.
  intros C C2.
  apply (relay_follows_supersession initial C C2 "pk_i" 10 20
           AcceptConnection C "pk_x").
  - discriminate.
  - reflexivity.
  - discriminate.
  - reflexivity.
  - vm_compute. reflexivity.
Defined.

(** X19. The budget belongs to the address, not to the socket or the
    operation: when the limiter blocks one socket, it blocks [register] and
    [request-connection] for every socket with the same address at that
    time, and a blocked [request-connection] does nothing at all: no
    delivery even to a registered target, no look at the store, no change.
    The five other relay messages are not limited and go through as
    before. *)
Theorem blocked_address_blocks_both_operations (st : state) (s s' : socket)
    (now : Z) (p : option string) (to from : string) (kind : direct) :
  ¬ admitted s now st →
  handshake_address s' = handshake_address s →
  on_register s' p now st = Returned tt st []
  ∧ on_request_connection s' to from now st = Returned tt st []
  ∧ final_state (on_direct kind s' to from st) = st
  ∧ (∀ tgt, lookup st to = Own tgt → tgt ≠ "" →
       emitted (on_direct kind s' to from st)
       = [IoTo tgt (fst (direct_event kind from))
            (snd (direct_event kind from))]).
Proof.
  intros Hadm Haddr.
  assert (Hadm' : ¬ admitted s' now st).
  { unfold admitted in *. rewrite Haddr. exact Hadm. }
  split; [apply on_register_limited, Hadm'|].
  split; [apply on_request_connection_limited, Hadm'|].
  rewrite on_direct_run. split; [reflexivity|].
  intros tgt -> Hne. cbn [emitted relay_to].
  rewrite (truthy_str_nonempty tgt Hne). reflexivity.
Qed.

Lemma blocked_address_blocks_both_operations_witness :
  let a := mkSocket "sA" "203.0.113.7" in
  let b := mkSocket "sB" "203.0.113.7" in
  let st := set_rateLimit (<["203.0.113.7" := mkRecord 20 1000]> ∅)
              (after [Connection a; Connection b; Register a (Some "pk_a") 10]
                 initial) in
  on_request_connection b "pk_a" "pk_b" 2000 st
  = Returned tt st []
  ∧ emitted (on_direct CallAccepted b "pk_a" "pk_b" st)
    = [IoTo "sA" "call-accepted" (JObj [("from", JStr "pk_b")])].
Proof.
  intros a b st.
  destruct (blocked_address_blocks_both_operations st a b 2000 None
              "pk_a" "pk_b" CallAccepted)
    as (_ & Hreq & _ & Hdirect).
  - vm_compute. discriminate.
  - reflexivity.
  - split; [exact Hreq|]. apply (Hdirect "sA").
    + vm_compute. reflexivity.
    + discriminate.
Defined.

End relay_more.

(** ** Rooms *)

Section rooms_more.

(** X22. Rooms are named by the client: a socket that joins the room named
    by another socket's id receives, from then on, every relay message
    emitted to that socket. *)
Theorem joining_an_id_room_receives_its_messages (st : state)
    (A B : socket) (kind : direct) (s : socket) (to from : string) :
  lookup st to = Own (sock_id A) →
  sock_id A ≠ "" →
  let st' := final_state (on_join B (sock_id A) st) in
  inbox (rooms st') (sock_id B) (emitted (on_direct kind s to from st'))
  = [direct_event kind from].
Proof.
  intros Hlook Hid st'.
  assert (Hlook' : lookup st' to = Own (sock_id A)) by exact Hlook.
  rewrite on_direct_run, Hlook'. cbn [emitted relay_to].
  rewrite (truthy_str_nonempty _ Hid).
  simpl. rewrite bool_decide_true.
  - destruct (direct_event kind from). reflexivity.
  - subst st'. apply on_join_members. auto.
Qed.

Lemma joining_an_id_room_receives_its_messages_witness :
  let A := mkSocket "sA" "198.51.100.1" in
  let B := mkSocket "sB" "198.51.100.2" in
  let C := mkSocket "sC" "198.51.100.3" in
  let st := after [Connection A; Connection B; Connection C;
                   Register A (Some "pk_a") 10] initial in
  let st' := final_state (on_join B "sA" st) in
  inbox (rooms st') "sB"
    (emitted (on_direct AcceptConnection C "pk_a" "pk_c" st'))
  = [("connection-accepted", JObj [("from", JStr "pk_c")])].
Proof.
  intros A B C st.
  apply (joining_an_id_room_receives_its_messages st A B AcceptConnection C
           "pk_a" "pk_c").
  - vm_compute. reflexivity.
  - discriminate.
Defined.

End rooms_more.

(** ** The registry and the relay on plain identities *)

Section plain_identities.

(** X29. Supersession holds for every identity whose normal form names no
    member of [Object.prototype]: after [register(I, C)] goes through,
    [lookup(I)] is [C]; after a later [register(I, C2)] goes through,
    whatever happened in between, [lookup(I)] is [C2]. Both handlers return
    normally. *)
Theorem register_supersedes_on_plain_keys (st : state) (C C2 : socket)
    (I : string) (now now2 : Z) (between : list event) :
  I ≠ "" →
  plain_key (normKey I) →
  let o1 := on_register C (Some I) now st in
  let st2 := after between (final_state o1) in
  let o2 := on_register C2 (Some I) now2 st2 in
  admitted C now st →
  admitted C2 now2 st2 →
  returned o1 = true
  ∧ lookup (final_state o1) I = Own (sock_id C)
  ∧ returned o2 = true
  ∧ lookup (final_state o2) I = Own (sock_id C2).
Proof.
  intros HI Hplain o1 st2 o2 Hadm Hadm2. subst o2 st2 o1.
  pose proof (plain_notifiable _ Hplain) as Hnotify.
  pose proof (plain_not_proto _ Hplain) as Hproto.
  rewrite (on_register_run C2 I now2 _ Hadm2 HI) by auto.
  rewrite (on_register_run C I now st Hadm HI) by auto.
  cbn [final_state returned emitted]. unfold lookup.
  split; [reflexivity|].
  split; [apply obj_get_own, registered_lookup, Hproto|].
  split; [reflexivity|].
  apply obj_get_own, registered_lookup, Hproto.
Qed.

Lemma register_supersedes_on_plain_keys_witness :
  let C := mkSocket "c1" "198.51.100.1" in
  let C2 := mkSocket "c2" "198.51.100.2" in
  let o1 := on_register C (Some "pk a") 10 initial in
  let o2 := on_register C2 (Some "pk a") 20
              (after [Connection C2] (final_state o1)) in
  lookup (final_state o1) "pk a" = Own "c1"
  ∧ lookup (final_state o2) "pk a" = Own "c2".
Proof.
  intros C C2 o1 o2.
  destruct (register_supersedes_on_plain_keys initial C C2 "pk a" 10 20
              [Connection C2]) as (_ & H1 & _ & H2).
  - discriminate.
  - reflexivity.
  - reflexivity.
  - vm_compute. reflexivity.
  - split; [exact H1|exact H2].
Defined.

(** X30. The initial-status reply is exact on plain identities: when the
    keys the socket subscribed to before and the normal forms of the
    requested identities name no member of [Object.prototype],
    [subscribe(S, K)] returns normally and replies to [S], and to [S] only
    once, with [presence-initial-status] carrying exactly the requested
    identities that have a registry entry when the request is handled, in
    the order and form in which they were requested. *)
Theorem subscribe_replies_on_plain_keys (st : state) (S : socket)
    (K : list string) :
  ids_nonempty st →
  forward_plain st (sock_id S) →
  Forall (λ k, plain_key (normKey k)) K →
  let o := on_subscribe_to_presence S (Some K) st in
  returned o = true
  ∧ emitted o = [SocketEmit (sock_id S) "presence-initial-status"
                   (JArr (JStr <$> online_subset st K))]
  ∧ inbox (rooms (final_state o)) (sock_id S) (emitted o)
    = [("presence-initial-status", JArr (JStr <$> online_subset st K))].
Proof.
  intros Hids Hfwd HK o. subst o. rewrite on_subscribe_run by assumption.
  assert (Heq : List.filter (λ key, read_truthy (lookup st key)) K
                = online_subset st K).
  { unfold online_subset. clear Hfwd.
    induction HK as [|k K Hk _ IH]; [reflexivity|].
    cbn [List.filter]. rewrite IH.
    rewrite (read_truthy_registered st k Hids Hk). reflexivity. }
  rewrite Heq. simpl. rewrite bool_decide_true by reflexivity. auto.
Qed.

(** End-to-end scenario 1: A registers ["pk_a"], B subscribes to
    [["pk_a"]] and receives [presence-initial-status(["pk_a"])]. *)
Lemma subscribe_replies_on_plain_keys_witness :
  let A := mkSocket "sA" "198.51.100.1" in
  let B := mkSocket "sB" "198.51.100.2" in
  let st := after [Connection A; Connection B; Register A (Some "pk_a") 10]
              initial in
  let o := on_subscribe_to_presence B (Some ["pk_a"]) st in
  online_subset st ["pk_a"] = ["pk_a"]
  ∧ inbox (rooms (final_state o)) "sB" (emitted o)
    = [("presence-initial-status", JArr [JStr "pk_a"])].
Proof.
  intros A B st o.
  destruct (subscribe_replies_on_plain_keys st B ["pk_a"])
    as (_ & _ & Hinbox).
  - apply (bool_decide_unpack _). vm_compute. exact I.
  - constructor.
  - repeat constructor.
  - split; [vm_compute; reflexivity | exact Hinbox].
Defined.



End plain_identities.
(** ** The ID directory *)

Section directory.

Lemma owns_iff store k p :
  truthy (default JUndefined (store !! k))
  && is_string p (field "pubKey" (default JUndefined (store !! k))) = true
  ↔ owned_by store k p.
Proof.
  unfold owned_by. split.
  - intros H. apply andb_true_iff in H as [_ H].
    destruct (store !! k) as [item|]; [|discriminate].
    exists item. split; [reflexivity|]. simpl in *.
    destruct (field "pubKey" item); try discriminate.
    apply String.eqb_eq in H. congruence.
  - intros (item & -> & Hp). simpl. rewrite Hp. simpl.
    rewrite String.eqb_refl, andb_true_r.
    destruct item; try discriminate. reflexivity.
Qed.

Lemma owns_other_id_spec store p c keys :
  owns_other_id store p c keys = true
  ↔ ∃ k, k ∈ keys ∧ k ≠ c ∧ owned_by store k p.
Proof.
  induction keys as [|key keys IH]; cbn [owns_other_id].
  - split; [discriminate|]. intros (k & Hin & _). inversion Hin.
  - destruct (truthy (default JUndefined (store !! key))
              && is_string p (field "pubKey" (default JUndefined (store !! key))))
      eqn:Hown.
    + destruct (String.eqb_spec key c) as [->|Hne]; cbn [negb andb].
      * rewrite IH. split.
        -- intros (k & Hin & H). exists k. split; [right; exact Hin|exact H].
        -- intros (k & Hin & Hk & H). apply elem_of_cons in Hin as [->|Hin];
             [congruence|]. eauto.
      * split; [|reflexivity]. intros _. exists key.
        split; [left|]. split; [exact Hne|]. apply owns_iff, Hown.
    + cbn [andb]. rewrite IH. split.
      * intros (k & Hin & H). exists k. split; [right; exact Hin|exact H].
      * intros (k & Hin & Hk & H). apply elem_of_cons in Hin as [->|Hin];
          [|eauto].
        apply owns_iff in H. congruence.
Qed.

Lemma claim_id_complete req keys store c code per p priv :
  present (customId req) c →
  present (fullInviteCode req) code →
  present (persistence req) per →
  present (pubKey req) p →
  present (privacy req) priv →
  claim_id req keys store
  = if owns_other_id store p c keys
    then (mkResponse 409
            (error ("You already own a different ID. " +:+
                    "Please delete it before claiming a new one.")), [])
    else if truthy (default JUndefined (store !! c))
            && negb (is_string p
                       (field "pubKey" (default JUndefined (store !! c))))
    then (mkResponse 409 (error "ID already taken"), [])
    else (mkResponse 200 (JObj [("success", JBool true); ("id", JStr c)]),
          [SetItem c (claim_value code per p priv) (claim_ttl per)]).
Proof.
  intros [Hc Hc'] [Hcode Hcode'] [Hper Hper'] [Hp Hp'] [Hpriv Hpriv'].
  unfold claim_id. rewrite Hc, Hcode, Hper, Hp, Hpriv.
  rewrite !truthy_prop_nonempty by assumption. reflexivity.
Qed.

Lemma claim_id_incomplete req keys store :
  missing (customId req) ∨ missing (fullInviteCode req)
  ∨ missing (persistence req) ∨ missing (pubKey req)
  ∨ missing (privacy req) →
  claim_id req keys store
  = (mkResponse 400 (error "Missing required fields"), []).
Proof.
  assert (Hfalse : ∀ o, missing o → truthy (prop o) = false).
  { intros o [->| ->]; reflexivity. }
  intros H. unfold claim_id.
  destruct H as [H|[H|[H|[H|H]]]]; rewrite (Hfalse _ H);
    rewrite ?andb_false_r; reflexivity.
Qed.

Lemma missing_or_present o : missing o ∨ ∃ s, present o s.
Proof.
  destruct o as [s|]; [|left; left; reflexivity].
  destruct (decide (s = "")) as [->|Hs]; [left; right; reflexivity|].
  right. exists s. split; [reflexivity|exact Hs].
Qed.

(** X23. [POST /claim-id] answers 200, 400 or 409. It writes to the store
    only together with 200, and then exactly one item, under the requested
    ID; a body in which one of the five fields is absent or empty gets 400
    whatever the store holds. *)
Theorem claim_id_writes_only_on_success (req : claim)
    (allKeys : list string) (store : gmap string jsval) :
  let result := claim_id req allKeys store in
  ((status (fst result) = 200
    ∧ ∃ c value ttl, customId req = Some c
        ∧ snd result = [SetItem c value ttl])
   ∨ ((status (fst result) = 400 ∨ status (fst result) = 409)
      ∧ snd result = []))
  ∧ (missing (customId req) ∨ missing (fullInviteCode req)
     ∨ missing (persistence req) ∨ missing (pubKey req)
     ∨ missing (privacy req) →
     result = (mkResponse 400 (error "Missing required fields"), [])).
Proof.
  intros result. subst result. split; [|apply claim_id_incomplete].
  destruct (missing_or_present (customId req)) as [H1|[c Hc]];
    [rewrite claim_id_incomplete by tauto; right; simpl; tauto|].
  destruct (missing_or_present (fullInviteCode req)) as [H2|[code Hcode]];
    [rewrite claim_id_incomplete by tauto; right; simpl; tauto|].
  destruct (missing_or_present (persistence req)) as [H3|[per Hper]];
    [rewrite claim_id_incomplete by tauto; right; simpl; tauto|].
  destruct (missing_or_present (pubKey req)) as [H4|[p Hp]];
    [rewrite claim_id_incomplete by tauto; right; simpl; tauto|].
  destruct (missing_or_present (privacy req)) as [H5|[priv Hpriv]];
    [rewrite claim_id_incomplete by tauto; right; simpl; tauto|].
  rewrite (claim_id_complete req allKeys store c code per p priv)
    by assumption.
  destruct (owns_other_id store p c allKeys); [right; simpl; tauto|].
  destruct (truthy _ && negb _); [right; simpl; tauto|].
  left. simpl. split; [reflexivity|]. destruct Hc as [Hc _]. eauto.
Qed.

Lemma claim_id_writes_only_on_success_witness :
  let req := mkClaim (Some "syrja/nova-fox") (Some "invite-1")
               (Some "permanent") (Some "pk_a") None in
  claim_id req [] ∅
  = (mkResponse 400 (error "Missing required fields"), []).
Proof.
  intros req.
  destruct (claim_id_writes_only_on_success req [] ∅) as [_ H].
  apply H. do 4 right. left. reflexivity.
Defined.

Lemma owned_by_insert store c value k q :
  owned_by (<[c := value]> store) k q
  ↔ (k = c ∧ field "pubKey" value = JStr q) ∨ (k ≠ c ∧ owned_by store k q).
Proof.
  unfold owned_by. destruct (decide (k = c)) as [->|Hne].
  - rewrite lookup_insert_eq. split.
    + intros (item & [= <-] & H). auto.
    + intros [[_ H]|[Hne _]]; [eauto|congruence].
  - rewrite lookup_insert_ne by congruence. split; [auto|].
    intros [[Hk _]|[_ H]]; [congruence|exact H].
Qed.

Lemma claim_id_invariant (req : claim) (allKeys : list string)
    (store : gmap string jsval) :
  lists_store allKeys store →
  one_id_per_key store →
  one_id_per_key (apply_ops (snd (claim_id req allKeys store)) store).
Proof.
  intros Hlist Hinv.
  destruct (missing_or_present (customId req)) as [H1|[c Hc]];
    [rewrite claim_id_incomplete by tauto; exact Hinv|].
  destruct (missing_or_present (fullInviteCode req)) as [H2|[code Hcode]];
    [rewrite claim_id_incomplete by tauto; exact Hinv|].
  destruct (missing_or_present (persistence req)) as [H3|[per Hper]];
    [rewrite claim_id_incomplete by tauto; exact Hinv|].
  destruct (missing_or_present (pubKey req)) as [H4|[p Hp]];
    [rewrite claim_id_incomplete by tauto; exact Hinv|].
  destruct (missing_or_present (privacy req)) as [H5|[priv Hpriv]];
    [rewrite claim_id_incomplete by tauto; exact Hinv|].
  rewrite (claim_id_complete req allKeys store c code per p priv)
    by assumption.
  destruct (owns_other_id store p c allKeys) eqn:Hother; [exact Hinv|].
  destruct (truthy _ && negb _) eqn:Htaken; [exact Hinv|].
  cbn [snd apply_ops foldl apply_op].
  assert (Hnone : ∀ k, k ≠ c → ¬ owned_by store k p).
  { intros k Hk Hown.
    assert (Hex : owns_other_id store p c allKeys = true).
    { apply owns_other_id_spec. exists k. split; [|auto].
      apply Hlist. destruct Hown as (item & -> & _). eauto. }
    congruence. }
  assert (Hvalue : ∀ q, field "pubKey" (claim_value code per p priv) = JStr q
                        → q = p).
  { intros q [= <-]. reflexivity. }
  intros k1 k2 q H1 H2.
  apply owned_by_insert in H1 as [[-> Hq1]|[Hk1 H1]];
    apply owned_by_insert in H2 as [[-> Hq2]|[Hk2 H2]].
  - reflexivity.
  - apply Hvalue in Hq1 as ->. destruct (Hnone k2 Hk2 H2).
  - apply Hvalue in Hq2 as ->. destruct (Hnone k1 Hk1 H1).
  - exact (Hinv k1 k2 q H1 H2).
Qed.

(** X24. [POST /claim-id] keeps the rule of one ID per public key: if no
    public key owns two IDs in the store and the key listing covers the
    store, then the same holds after the request, whatever it asks for. *)
Theorem claim_id_keeps_one_id_per_key (req : claim) (allKeys : list string)
    (store : gmap string jsval) :
  lists_store allKeys store →
  one_id_per_key store →
  one_id_per_key (apply_ops (snd (claim_id req allKeys store)) store).
Proof. apply claim_id_invariant. Qed.

Lemma claim_id_keeps_one_id_per_key_witness :
  let req := mkClaim (Some "syrja/nova-fox") (Some "invite-1")
               (Some "permanent") (Some "pk_a") (Some "public") in
  one_id_per_key (apply_ops (snd (claim_id req [] ∅)) ∅).
Proof.
  intros req. apply (claim_id_keeps_one_id_per_key req [] ∅).
  - intros k [item Hk]. rewrite lookup_empty in Hk. discriminate.
  - intros k1 k2 p (item & Hk & _). rewrite lookup_empty in Hk. discriminate.
Defined.

(** X25. [POST /claim-id] never takes an ID away from its owner: whatever
    the request and its answer, every ID that had an owner before has the
    same owner afterwards. *)
Theorem claim_id_never_changes_an_owner (req : claim)
    (allKeys : list string) (store : gmap string jsval) (k q : string) :
  owned_by store k q →
  owned_by (apply_ops (snd (claim_id req allKeys store)) store) k q.
Proof.
  intros Hown.
  destruct (missing_or_present (customId req)) as [H1|[c Hc]];
    [rewrite claim_id_incomplete by tauto; exact Hown|].
  destruct (missing_or_present (fullInviteCode req)) as [H2|[code Hcode]];
    [rewrite claim_id_incomplete by tauto; exact Hown|].
  destruct (missing_or_present (persistence req)) as [H3|[per Hper]];
    [rewrite claim_id_incomplete by tauto; exact Hown|].
  destruct (missing_or_present (pubKey req)) as [H4|[p Hp]];
    [rewrite claim_id_incomplete by tauto; exact Hown|].
  destruct (missing_or_present (privacy req)) as [H5|[priv Hpriv]];
    [rewrite claim_id_incomplete by tauto; exact Hown|].
  rewrite (claim_id_complete req allKeys store c code per p priv)
    by assumption.
  destruct (owns_other_id store p c allKeys); [exact Hown|].
  destruct (truthy _ && negb _) eqn:Htaken; [exact Hown|].
  cbn [snd apply_ops foldl apply_op]. apply owned_by_insert.
  destruct (decide (k = c)) as [->|Hne]; [left|right; auto].
  split; [reflexivity|].
  destruct Hown as (item & Hitem & Hq). rewrite Hitem in Htaken.
  simpl in Htaken. rewrite Hq in Htaken. simpl in Htaken.
  destruct item; try discriminate. simpl in Htaken.
  apply negb_false_iff, String.eqb_eq in Htaken. subst q. reflexivity.
Qed.

Lemma claim_id_never_changes_an_owner_witness :
  let store := <["syrja/nova-fox" := claim_value "invite-1" "permanent"
                                       "pk_a" "public"]> ∅ in
  let req := mkClaim (Some "syrja/nova-fox") (Some "invite-2")
               (Some "permanent") (Some "pk_b") (Some "public") in
  owned_by (apply_ops (snd (claim_id req ["syrja/nova-fox"] store)) store)
    "syrja/nova-fox" "pk_a".
Proof.
  intros store req.
  apply (claim_id_never_changes_an_owner req ["syrja/nova-fox"] store).
  eexists. split; [apply lookup_insert_eq|reflexivity].
Defined.

(** X26. Claim then resolve: after a claim that was answered with 200 for
    the ID ["syrja/" + id], [GET /get-invite/id] answers 403 when the claim
    asked for privacy ["private"] and otherwise 200 with the invite code of
    the claim; the answer for any other name is what it was before. Only
    IDs that start with ["syrja/"] can be resolved at all. *)
Theorem claim_then_get_invite (req : claim) (allKeys : list string)
    (store : gmap string jsval) (id c code per p priv : string) :
  present (customId req) c →
  present (fullInviteCode req) code →
  present (persistence req) per →
  present (pubKey req) p →
  present (privacy req) priv →
  status (fst (claim_id req allKeys store)) = 200 →
  let store' := apply_ops (snd (claim_id req allKeys store)) store in
  (c = "syrja/" +:+ id →
     get_invite id store'
     = if String.eqb priv "private"
       then mkResponse 403 (error "This ID is private")
       else mkResponse 200 (JObj [("fullInviteCode", JStr code)]))
  ∧ (c ≠ "syrja/" +:+ id → get_invite id store' = get_invite id store).
Proof.
  intros Hc Hcode Hper Hp Hpriv.
  rewrite (claim_id_complete req allKeys store c code per p priv)
    by assumption.
  destruct (owns_other_id store p c allKeys); [discriminate|].
  destruct (truthy _ && negb _); [discriminate|].
  intros _ store'. subst store'. cbn [snd apply_ops foldl apply_op].
  unfold get_invite. split.
  - intros ->. rewrite lookup_insert_eq.
    simpl. destruct Hcode as [_ Hcode].
    destruct (String.eqb_spec code ""); [congruence|]. reflexivity.
  - intros Hne. rewrite lookup_insert_ne by congruence. reflexivity.
Qed.

Lemma claim_then_get_invite_witness :
  let req := mkClaim (Some "syrja/nova-fox") (Some "invite-1")
               (Some "temporary") (Some "pk_a") (Some "public") in
  let store' := apply_ops (snd (claim_id req [] ∅)) ∅ in
  get_invite "nova-fox" store'
  = mkResponse 200 (JObj [("fullInviteCode", JStr "invite-1")]).
Proof.
  intros req.
  destruct (claim_then_get_invite req [] ∅ "nova-fox" "syrja/nova-fox"
              "invite-1" "temporary" "pk_a" "public") as [H _];
    try (split; [reflexivity|discriminate]).
  - reflexivity.
  - apply H. reflexivity.
Defined.

Lemma get_id_by_pubkey_found store p k item : ∀ keys,
  one_id_per_key store →
  store !! k = Some item →
  field "pubKey" item = JStr p →
  k ∈ keys →
  get_id_by_pubkey p keys store
  = mkResponse 200
      (JObj [("id", JStr k); ("permanent", field "permanent" item)]).
Proof.
  intros keys Hinv Hitem Hp. induction keys as [|key keys IH]; intros Hin.
  - inversion Hin.
  - cbn [get_id_by_pubkey].
    destruct (truthy (default JUndefined (store !! key))
              && is_string p (field "pubKey" (default JUndefined (store !! key))))
      eqn:Hown.
    + apply owns_iff in Hown.
      assert (key = k) as ->.
      { apply (Hinv key k p Hown). exists item. auto. }
      rewrite Hitem. reflexivity.
    + apply elem_of_cons in Hin as [->|Hin]; [|exact (IH Hin)].
      assert (Hk : owned_by store key p) by (exists item; auto).
      apply owns_iff in Hk. congruence.
Qed.

Lemma get_id_by_pubkey_none store p : ∀ keys,
  (∀ k, k ∈ keys → ¬ owned_by store k p) →
  get_id_by_pubkey p keys store
  = mkResponse 404 (error "No ID found for this public key").
Proof.
  induction keys as [|key keys IH]; intros Hnone; [reflexivity|].
  cbn [get_id_by_pubkey].
  destruct (truthy (default JUndefined (store !! key))
            && is_string p (field "pubKey" (default JUndefined (store !! key))))
    eqn:Hown.
  - apply owns_iff in Hown. destruct (Hnone key); [left|exact Hown].
  - apply IH. intros k Hin. apply Hnone. right. exact Hin.
Qed.

(** X27. Claim then look up by key: when no public key owned two IDs, after
    a claim answered with 200, [GET /get-id-by-pubkey] for the claiming key
    answers 200 with the claimed ID and with [permanent] true exactly when
    the claim asked for persistence ["permanent"], in whatever order the
    store lists its keys; and for a key that owns no listed ID it answers
    404. *)
Theorem claim_then_get_id_by_pubkey (req : claim) (allKeys keys : list string)
    (store : gmap string jsval) (c code per p priv : string) :
  present (customId req) c →
  present (fullInviteCode req) code →
  present (persistence req) per →
  present (pubKey req) p →
  present (privacy req) priv →
  lists_store allKeys store →
  one_id_per_key store →
  status (fst (claim_id req allKeys store)) = 200 →
  let store' := apply_ops (snd (claim_id req allKeys store)) store in
  lists_store keys store' →
  get_id_by_pubkey p keys store'
  = mkResponse 200
      (JObj [("id", JStr c);
             ("permanent", JBool (String.eqb per "permanent"))])
  ∧ (∀ q, (∀ k, k ∈ keys → ¬ owned_by store' k q) →
       get_id_by_pubkey q keys store'
       = mkResponse 404 (error "No ID found for this public key")).
Proof.
  intros Hc Hcode Hper Hp Hpriv Hlist Hinv Hok store' Hkeys.
  pose proof (claim_id_invariant req allKeys store Hlist Hinv) as Hinv'.
  fold store' in Hinv'.
  split; [|intros q; apply get_id_by_pubkey_none].
  assert (Hitem : store' !! c = Some (claim_value code per p priv)).
  { subst store'. revert Hok.
    rewrite (claim_id_complete req allKeys store c code per p priv)
      by assumption.
    destruct (owns_other_id store p c allKeys); [discriminate|].
    destruct (truthy _ && negb _); [discriminate|].
    intros _. cbn [snd apply_ops foldl apply_op]. apply lookup_insert_eq. }
  rewrite (get_id_by_pubkey_found store' p c (claim_value code per p priv));
    [reflexivity|exact Hinv'|exact Hitem|reflexivity|].
  apply Hkeys. eauto.
Qed.

Lemma claim_then_get_id_by_pubkey_witness :
  let req := mkClaim (Some "syrja/nova-fox") (Some "invite-1")
               (Some "temporary") (Some "pk_a") (Some "public") in
  let store' := apply_ops (snd (claim_id req [] ∅)) ∅ in
  get_id_by_pubkey "pk_a" ["sub_pk_b"; "syrja/nova-fox"] store'
  = mkResponse 200
      (JObj [("id", JStr "syrja/nova-fox"); ("permanent", JBool false)]).
Proof.
  intros req.
  destruct (claim_then_get_id_by_pubkey req [] ["sub_pk_b"; "syrja/nova-fox"]
              ∅ "syrja/nova-fox" "invite-1" "temporary" "pk_a" "public")
    as [H _]; try (split; [reflexivity|discriminate]).
  - intros k [item Hk]. rewrite lookup_empty in Hk. discriminate.
  - intros k1 k2 p (item & Hk & _). rewrite lookup_empty in Hk. discriminate.
  - reflexivity.
  - intros k [item Hk]. vm_compute in Hk.
    destruct (decide (k = "syrja/nova-fox")) as [->|Hne];
      [right; left|].
    cbn [apply_ops foldl apply_op snd] in Hk.
    change (<["syrja/nova-fox" :=
               claim_value "invite-1" "temporary" "pk_a" "public"]>
              (∅ : gmap string jsval) !! k = Some item) in Hk.
    rewrite lookup_insert_ne, lookup_empty in Hk by congruence. discriminate.
  - exact H.
Defined.

Lemma find_key_found store p k item : ∀ allItems,
  one_id_per_key store →
  (∀ k' v, (k', v) ∈ allItems → store !! k' = Some v) →
  Forall (λ kv, readable kv.2) allItems →
  (k, item) ∈ allItems →
  field "pubKey" item = JStr p →
  find_key p allItems = inr (Some k).
Proof.
  intros allItems Hinv. induction allItems as [|[key value] rest IH];
    intros Hstore Hread Hin Hp.
  - inversion Hin.
  - apply Forall_cons in Hread as [[Hnull Hundef] Hread]. simpl in *.
    cbn [find_key].
    destruct (is_string p (field "pubKey" value)) eqn:Hown.
    + assert (Hk : owned_by store key p).
      { exists value. split; [apply Hstore; left|].
        destruct (field "pubKey" value); try discriminate.
        apply String.eqb_eq in Hown. congruence. }
      assert (key = k) as ->.
      { apply (Hinv key k p Hk). exists item. split; [|exact Hp].
        apply Hstore. exact Hin. }
      destruct value; try reflexivity; congruence.
    + apply elem_of_cons in Hin as [[= <- <-]|Hin].
      * rewrite Hp in Hown. simpl in Hown. rewrite String.eqb_refl in Hown.
        discriminate.
      * rewrite <- (IH (λ k' v H, Hstore k' v (list_elem_of_further _ _ _ H))
                      Hread Hin Hp).
        destruct value; try reflexivity; congruence.
Qed.

Lemma find_key_none p : ∀ allItems,
  Forall (λ kv, readable kv.2) allItems →
  (∀ k v, (k, v) ∈ allItems → field "pubKey" v ≠ JStr p) →
  find_key p allItems = inr None.
Proof.
  induction allItems as [|[key value] rest IH]; intros Hread Hnone;
    [reflexivity|].
  apply Forall_cons in Hread as [[Hnull Hundef] Hread]. simpl in *.
  cbn [find_key].
  destruct (is_string p (field "pubKey" value)) eqn:Hown.
  - exfalso. apply (Hnone key value); [left|].
    destruct (field "pubKey" value); try discriminate.
    apply String.eqb_eq in Hown. congruence.
  - rewrite <- (IH Hread (λ k v H, Hnone k v (list_elem_of_further _ _ _ H))).
    destruct value; try reflexivity; congruence.
Qed.

(** X28. [POST /delete-id]: without a public key the answer is 400 and
    nothing is removed. With one, when the store lists exactly its items,
    all of them readable, and no key owns two IDs: if the key owns an ID,
    the answer is 200 and exactly that ID is removed, after which the key
    owns nothing and [GET /get-id-by-pubkey] answers 404 for it; if the key
    owns no ID, the answer is 200 with a message and nothing is removed. *)
Theorem delete_id_removes_the_owned_id (store : gmap string jsval)
    (allItems : list (string * jsval)) (p : string) :
  lists_data allItems store →
  Forall (λ kv, readable kv.2) allItems →
  one_id_per_key store →
  p ≠ "" →
  (∀ o, missing o →
     delete_id o allItems
     = inr (mkResponse 400 (error "Public key is required"), []))
  ∧ (∀ k, owned_by store k p → k ≠ "" →
       delete_id (Some p) allItems
       = inr (mkResponse 200 (JObj [("success", JBool true)]), [RemoveItem k])
       ∧ (∀ k', ¬ owned_by (apply_ops [RemoveItem k] store) k' p)
       ∧ (∀ keys, get_id_by_pubkey p keys (apply_ops [RemoveItem k] store)
                  = mkResponse 404 (error "No ID found for this public key")))
  ∧ ((∀ k, ¬ owned_by store k p) →
       delete_id (Some p) allItems
       = inr (mkResponse 200
                (JObj [("success", JBool true);
                       ("message", JStr "No ID found to delete")]), [])).
Proof.
  intros Hdata Hread Hinv Hp. split; [|split].
  - intros o [->| ->]; reflexivity.
  - intros k (item & Hitem & Hown) Hk.
    assert (Hgone : ∀ k', ¬ owned_by (apply_ops [RemoveItem k] store) k' p).
    { intros k' (item' & Hitem' & Hown'). cbn in Hitem'.
      destruct (decide (k' = k)) as [->|Hne].
      - rewrite lookup_delete_eq in Hitem'. discriminate.
      - rewrite lookup_delete_ne in Hitem' by congruence.
        apply Hne. apply (Hinv k' k p); eexists; eauto. }
    split; [|split; [exact Hgone|]].
    + unfold delete_id. rewrite (truthy_prop_nonempty p Hp). cbn [negb].
      change (default "" (Some p)) with p.
      rewrite (find_key_found store p k item allItems Hinv);
        [|intros k' v H; apply Hdata, H|exact Hread|apply Hdata, Hitem
         |exact Hown].
      rewrite (truthy_prop_nonempty k Hk). reflexivity.
    + intros keys. apply get_id_by_pubkey_none. intros k' _. apply Hgone.
  - intros Hnone. unfold delete_id.
    rewrite (truthy_prop_nonempty p Hp). cbn [negb].
      change (default "" (Some p)) with p.
    rewrite (find_key_none p allItems Hread); [reflexivity|].
    intros k v Hin Hown. apply (Hnone k). exists v.
    split; [apply Hdata, Hin|exact Hown].
Qed.

Lemma delete_id_removes_the_owned_id_witness :
  let value := claim_value "invite-1" "permanent" "pk_a" "public" in
  delete_id (Some "pk_a") [("syrja/nova-fox", value)]
  = inr (mkResponse 200 (JObj [("success", JBool true)]),
         [RemoveItem "syrja/nova-fox"]).
Proof.
  intros value.
  pose (store := <["syrja/nova-fox" := value]> (∅ : gmap string jsval)).
  destruct (delete_id_removes_the_owned_id store [("syrja/nova-fox", value)]
              "pk_a") as (_ & H & _).
  - intros k v. rewrite list_elem_of_singleton. unfold store.
    rewrite lookup_insert_Some, lookup_empty. split.
    + intros [= -> ->]. left. auto.
    + intros [[<- <-]|[_ [=]]]. reflexivity.
  - repeat constructor; discriminate.
  - intros k1 k2 q (i1 & H1 & _) (i2 & H2 & _). unfold store in *.
    apply lookup_insert_Some in H1 as [[<- _]|[_ H1]];
      [|rewrite lookup_empty in H1; discriminate].
    apply lookup_insert_Some in H2 as [[<- _]|[_ H2]];
      [|rewrite lookup_empty in H2; discriminate].
    reflexivity.
  - discriminate.
  - destruct (H "syrja/nova-fox") as [Hdel _].
    + exists value. split; [apply lookup_insert_eq|reflexivity].
    + discriminate.
    + exact Hdel.
Defined.

End directory.
